(** * js/main.js: client-side behaviour of the site, as a shallow embedding

    The script wires five behaviours to a fixed page: the mobile menu, the
    footer year, the contact form (validation and submission), the fade-in
    observer and the smooth-scroll / active-link highlighter.  The page is a
    store of elements addressed by node handles; every event handler of the
    script is a function on that store.  Two handles may denote the same
    element, exactly as two selectors may return the same element.  The
    footer year is written once at start-up and takes no part in any event;
    it is left out. *)

From Stdlib Require Import QArith Ascii String.
From stdpp Require Import base decidable option list strings gmap functions.

Set Warnings "-register-all,-clear-no-such-hyp".
Local Open Scope Z_scope.

(** * Strings

    Text typed by the user is inspected character by character ([trim], the
    e-mail pattern), so a field value is the sequence of its UTF-16 code
    units.  Identifiers of the page (class tokens, attribute names and
    values, ids, field names) and the messages shown are only compared and
    concatenated; they are kept as [string]. *)

Abbreviation code_units := (list N).

Definition js (s : string) : code_units := N_of_ascii <$> list_ascii_of_string s.

(** ECMAScript [WhiteSpace] and [LineTerminator]: what [String.prototype.trim]
    strips and what the class escape [\s] matches. *)
Definition is_space (c : N) : bool :=
  ((c =? 9) || (c =? 10) || (c =? 11) || (c =? 12) || (c =? 13) || (c =? 32)
   || (c =? 160) || (c =? 5760) || ((8192 <=? c) && (c <=? 8202))
   || (c =? 8232) || (c =? 8233) || (c =? 8239) || (c =? 8287)
   || (c =? 12288) || (c =? 65279))%N.

Fixpoint trimStart (s : code_units) : code_units :=
  match s with
  | c :: s' => if is_space c then trimStart s' else s
  | [] => []
  end.

Definition trimEnd (s : code_units) : code_units := reverse (trimStart (reverse s)).

Definition trim (s : code_units) : code_units := trimEnd (trimStart s).

(** * Regular expressions

    The fragment of the pattern language that main.js uses: literal
    characters, negated character sets over literals and [\s], sequence and
    [+].  A pattern anchored by [^] and [$] (no flags) is tested against the
    whole string.  [ReVoid], [ReEps], [ReAlt] and [ReStar] are what the
    derivatives of that fragment are made of. *)

Inductive ClassItem :=
  | ClassSpace              (* \s *)
  | ClassChar (c : N).

Definition class_item_matches (i : ClassItem) (c : N) : bool :=
  match i with
  | ClassSpace => is_space c
  | ClassChar k => (c =? k)%N
  end.

Inductive RegExp :=
  | ReVoid
  | ReEps
  | ReChar (c : N)                     (* a literal character *)
  | ReNotIn (items : list ClassItem)   (* [^...] *)
  | ReSeq (r1 r2 : RegExp)
  | ReAlt (r1 r2 : RegExp)
  | ReStar (r : RegExp).

Definition RePlus (r : RegExp) : RegExp := ReSeq r (ReStar r).

Fixpoint nullable (r : RegExp) : bool :=
  match r with
  | ReVoid | ReChar _ | ReNotIn _ => false
  | ReEps | ReStar _ => true
  | ReSeq r1 r2 => nullable r1 && nullable r2
  | ReAlt r1 r2 => nullable r1 || nullable r2
  end.

Definition not_in (items : list ClassItem) (c : N) : bool :=
  negb (existsb (λ i, class_item_matches i c) items).

Fixpoint deriv (c : N) (r : RegExp) : RegExp :=
  match r with
  | ReVoid | ReEps => ReVoid
  | ReChar k => if (c =? k)%N then ReEps else ReVoid
  | ReNotIn items => if not_in items c then ReEps else ReVoid
  | ReSeq r1 r2 =>
      if nullable r1 then ReAlt (ReSeq (deriv c r1) r2) (deriv c r2)
      else ReSeq (deriv c r1) r2
  | ReAlt r1 r2 => ReAlt (deriv c r1) (deriv c r2)
  | ReStar r1 => ReSeq (deriv c r1) (ReStar r1)
  end.

(** [/^r$/.test(s)] *)
Fixpoint test (r : RegExp) (s : code_units) : bool :=
  match s with
  | [] => nullable r
  | c :: s' => test (deriv c r) s'
  end.

(** The strings a pattern denotes. *)
Inductive matches : RegExp → code_units → Prop :=
  | matches_eps : matches ReEps []
  | matches_char c : matches (ReChar c) [c]
  | matches_not_in items c : not_in items c = true → matches (ReNotIn items) [c]
  | matches_seq r1 r2 s1 s2 :
      matches r1 s1 → matches r2 s2 → matches (ReSeq r1 r2) (s1 ++ s2)
  | matches_alt_l r1 r2 s : matches r1 s → matches (ReAlt r1 r2) s
  | matches_alt_r r1 r2 s : matches r2 s → matches (ReAlt r1 r2) s
  | matches_star_nil r : matches (ReStar r) []
  | matches_star_app r s1 s2 :
      matches r s1 → matches (ReStar r) s2 → matches (ReStar r) (s1 ++ s2).

(** The pattern of [validateField]: [/^[^\s@]+@[^\s@]+\.[^\s@]+$/]. *)
Definition at_sign : N := 64.
Definition full_stop : N := 46.

Definition email_atom : RegExp := ReNotIn [ClassSpace; ClassChar at_sign].

Definition email_pattern : RegExp :=
  ReSeq (RePlus email_atom)
    (ReSeq (ReChar at_sign)
       (ReSeq (RePlus email_atom)
          (ReSeq (ReChar full_stop) (RePlus email_atom)))).

(** The shape the pattern is documented to accept. *)
Definition atom_char (c : N) : Prop := is_space c = false ∧ c ≠ at_sign.

Definition email_shape (s : code_units) : Prop :=
  ∃ l d t : code_units,
    s = l ++ [at_sign] ++ d ++ [full_stop] ++ t
    ∧ l ≠ [] ∧ d ≠ [] ∧ t ≠ []
    ∧ Forall atom_char l ∧ Forall atom_char d ∧ Forall atom_char t.

(** * Elements and the element store *)

Abbreviation node := nat.

Record Element := mkElement {
  tagName : string;                  (* local name, in lower case *)
  type : string;                     (* the [type] property of a control *)
  attributes : gmap string string;   (* content attributes other than class *)
  classList : list string;           (* the class attribute, as a token list *)
  textContent : string;
  value : code_units;                (* the [value] property of a control *)
  checked : bool;
  selectedOptions : list code_units; (* select: values of the selected, enabled options *)
  resetValue : code_units;           (* what [reset()] restores, see [reset_control] *)
  resetChecked : bool;
  resetSelected : list code_units;
  disabled : bool;
  offsetTop : Z;
}.

Definition with_attributes (f : gmap string string → gmap string string) (e : Element) : Element :=
  mkElement (tagName e) (type e) (f (attributes e)) (classList e) (textContent e)
    (value e) (checked e) (selectedOptions e)
    (resetValue e) (resetChecked e) (resetSelected e) (disabled e) (offsetTop e).

Definition with_classList (f : list string → list string) (e : Element) : Element :=
  mkElement (tagName e) (type e) (attributes e) (f (classList e)) (textContent e)
    (value e) (checked e) (selectedOptions e)
    (resetValue e) (resetChecked e) (resetSelected e) (disabled e) (offsetTop e).

Definition with_textContent (t : string) (e : Element) : Element :=
  mkElement (tagName e) (type e) (attributes e) (classList e) t
    (value e) (checked e) (selectedOptions e)
    (resetValue e) (resetChecked e) (resetSelected e) (disabled e) (offsetTop e).

Definition with_disabled (b : bool) (e : Element) : Element :=
  mkElement (tagName e) (type e) (attributes e) (classList e) (textContent e)
    (value e) (checked e) (selectedOptions e)
    (resetValue e) (resetChecked e) (resetSelected e) b (offsetTop e).

Definition with_value (v : code_units) (e : Element) : Element :=
  mkElement (tagName e) (type e) (attributes e) (classList e) (textContent e)
    v (checked e) (selectedOptions e)
    (resetValue e) (resetChecked e) (resetSelected e) (disabled e) (offsetTop e).

Definition with_checked (b : bool) (e : Element) : Element :=
  mkElement (tagName e) (type e) (attributes e) (classList e) (textContent e)
    (value e) b (selectedOptions e)
    (resetValue e) (resetChecked e) (resetSelected e) (disabled e) (offsetTop e).

Definition with_selectedOptions (l : list code_units) (e : Element) : Element :=
  mkElement (tagName e) (type e) (attributes e) (classList e) (textContent e)
    (value e) (checked e) l
    (resetValue e) (resetChecked e) (resetSelected e) (disabled e) (offsetTop e).

(** ** The reset algorithm of a control

    [form.reset()] runs the reset algorithm of every input, textarea and
    select that the form owns; it touches no other element (an output
    element keeps its text: nothing here sets its value).  What the
    algorithm restores is fixed by the markup and is kept with the element:
    [resetValue] is the value attribute of an input, or the text of a
    textarea, as the value sanitization of the type leaves it, and for a
    select the value of the first option that ends up selected;
    [resetChecked] is whether an input has the checked attribute (for a
    radio button: and is the one of its group that stays checked);
    [resetSelected] lists the values of the enabled options that a select
    has selected once its options are back to their selected attributes.

    The [value] property of an input follows the reset only where the
    property is the typed value.  For a check box or a radio button it is
    the value attribute, or "on"; for a hidden input and the button types
    it is the value attribute: the reset leaves these alone.  For a file
    input the list of files is emptied, and the property with it. *)

(** The input types whose [value] property is the value attribute. *)
Definition value_is_attribute (ty : string) : bool :=
  bool_decide (ty ∈ ["checkbox"; "radio"; "hidden"; "submit"; "image"; "reset"; "button"]).

Definition reset_control (e : Element) : Element :=
  if bool_decide (tagName e = "input") then
    let v := if value_is_attribute (type e) then value e
             else if bool_decide (type e = "file") then []
             else resetValue e in
    with_checked (resetChecked e) (with_value v e)
  else if bool_decide (tagName e = "textarea") then with_value (resetValue e) e
  else if bool_decide (tagName e = "select") then
    with_selectedOptions (resetSelected e) (with_value (resetValue e) e)
  else e.

(** [DOMTokenList] *)
Definition token_add (t : string) (l : list string) : list string :=
  if decide (t ∈ l) then l else l ++ [t].

Definition token_remove (t : string) (l : list string) : list string :=
  filter (λ x, x ≠ t) l.

Definition token_toggle (t : string) (l : list string) : list string :=
  if decide (t ∈ l) then token_remove t l else l ++ [t].

Definition token_force (t : string) (force : bool) (l : list string) : list string :=
  if force then token_add t l else token_remove t l.

(** The options that an IntersectionObserver is created with; the root is
    the viewport when it is null. *)
Record ObserverOptions := mkOptions {
  root : option node;
  rootMargin : string;
  threshold : Q;
}.

(** What the script can observe of the window and the document. *)
Record State := mkState {
  document : node → Element;
  pageYOffset : Q;
  innerWidth : Z;
  observer : option ObserverOptions;   (* the fade-in observer, once created *)
  observed : list node;                (* the targets it observes *)
}.

Definition update (n : node) (f : Element → Element) (st : State) : State :=
  mkState (alter f n (document st)) (pageYOffset st) (innerWidth st)
    (observer st) (observed st).

(** [observerInstance.unobserve(target)] *)
Definition unobserve (n : node) (st : State) : State :=
  mkState (document st) (pageYOffset st) (innerWidth st)
    (observer st) (filter (λ m, m ≠ n) (observed st)).

(** [observer.observe(target)]: a target is observed once. *)
Definition observe (n : node) (st : State) : State :=
  mkState (document st) (pageYOffset st) (innerWidth st)
    (observer st) (if decide (n ∈ observed st) then observed st else observed st ++ [n]).

Definition getAttribute (st : State) (n : node) (a : string) : option string :=
  attributes (document st n) !! a.

Definition setAttribute (n : node) (a v : string) : State → State :=
  update n (with_attributes (insert a v)).

Definition removeAttribute (n : node) (a : string) : State → State :=
  update n (with_attributes (delete a)).

Definition contains (st : State) (n : node) (t : string) : bool :=
  bool_decide (t ∈ classList (document st n)).

Definition classList_add (n : node) (t : string) : State → State :=
  update n (with_classList (token_add t)).

Definition classList_remove (n : node) (t : string) : State → State :=
  update n (with_classList (token_remove t)).

Definition classList_toggle (n : node) (t : string) : State → State :=
  update n (with_classList (token_toggle t)).

Definition classList_force (n : node) (t : string) (force : bool) : State → State :=
  update n (with_classList (token_force t force)).

(** [element.className = "a b c"], given as the tokens of the literal. *)
Definition set_className (n : node) (tokens : list string) : State → State :=
  update n (with_classList (λ _, tokens)).

Definition set_textContent (n : node) (t : string) : State → State :=
  update n (with_textContent t).

(** The [id] property: the attribute, or the empty string. *)
Definition element_id (st : State) (n : node) : string :=
  default "" (getAttribute st n "id").

(** * The page

    The constants that the script selects once, when the document is ready.
    The script never inserts, removes or moves an element and never changes
    an id, so the selections are fixed; an element whose text the script
    assigns is assumed to have no element children.  A constant is optional
    where main.js tests it for null, and so is the submit button, which the
    submit handler dereferences without a test. *)

Record Page := mkPage {
  mobileMenuButton : option node;
  mobileMenu : option node;
  menuIcon : option node;              (* mobileMenuButton.querySelector('i') *)
  desktopMenuLinks : list node;
  mobileMenuLinks : list node;
  allNavLinks : list node;
  contactForm : option node;
  formDescendants : list node;         (* the elements inside the form, in tree order *)
  formControls : list node;            (* the controls owned by the form, in tree order *)
  submitButton : option node;          (* contactForm.querySelector('button[type="submit"]') *)
  formMessageContainer : option node;
  formMessageElement : option node;
  sectionsToFadeIn : list node;
  sectionsForNavHighlight : list node;
  headerNav : option node;
  navbarHeight : Z;                    (* headerNav.offsetHeight, read once at setup *)
  querySelector : string → option node;   (* document.querySelector *)
  hasIntersectionObserver : bool;
}.

(** * setupMobileMenu

    The two listeners are installed only when both the button and the panel
    exist; the icon is tested for null inside each of them. *)

Section MobileMenu.
Variables (button menu : node) (icon : option node).

(** [mobileMenuButton.addEventListener('click', ...)] *)
Definition mobileMenuButton_click (st : State) : State :=
  let isExpanded := bool_decide (getAttribute st button "aria-expanded" = Some "true") in
  let st := setAttribute button "aria-expanded" (if negb isExpanded then "true" else "false") st in
  let st := classList_toggle menu "hidden" st in
  match icon with
  | Some i =>
      let st := classList_force i "fa-bars" isExpanded st in
      classList_force i "fa-times" (negb isExpanded) st
  | None => st
  end.

(** [link.addEventListener('click', ...)] for each link of the mobile menu *)
Definition mobileMenuLink_click (st : State) : State :=
  if negb (contains st menu "hidden") then
    let st := classList_add menu "hidden" st in
    let st := setAttribute button "aria-expanded" "false" st in
    match icon with
    | Some i => classList_add i "fa-bars" (classList_remove i "fa-times" st)
    | None => st
    end
  else st.
End MobileMenu.

(** * validateField *)

Definition is_empty (s : code_units) : bool :=
  match s with [] => true | _ => false end.

(** The verdict and the message that [validateField] computes for a field. *)
Definition check_field (e : Element) : bool * string :=
  let v := trim (value e) in
  if bool_decide (is_Some (attributes e !! "required")) && is_empty v then
    (false, "Este campo es obligatorio.")
  else if bool_decide (type e = "email") && negb (is_empty v)
          && negb (test email_pattern v) then
    (false, "Por favor, introduzca un correo electrónico válido.")
  else (true, "").

(** [contactForm.querySelector('[data-error-for="' + field.id + '"]')];
    ids are taken to be free of quotes and backslashes. *)
Definition errorElement_for (pg : Page) (st : State) (field : node) : option node :=
  list.head (filter (λ n, getAttribute st n "data-error-for" = Some (element_id st field))
          (formDescendants pg)).

Definition validateField (pg : Page) (field : node) (st : State) : State * bool :=
  let errorElement := errorElement_for pg st field in
  let st := classList_remove field "border-red-500" st in
  let st := match errorElement with
            | Some e => classList_add e "hidden" st
            | None => st
            end in
  let '(isValid, errorMessage) := check_field (document st field) in
  if isValid then (st, true)
  else
    let st := classList_add field "border-red-500" st in
    let st := match errorElement with
              | Some e => classList_remove e "hidden" (set_textContent e errorMessage st)
              | None => st
              end in
    (st, false).

(** * setupContactForm *)

(** [input[required], textarea[required], input[type="email"]] *)
Definition needs_validation (e : Element) : bool :=
  (bool_decide (tagName e = "input") && bool_decide (is_Some (attributes e !! "required")))
  || (bool_decide (tagName e = "textarea") && bool_decide (is_Some (attributes e !! "required")))
  || (bool_decide (tagName e = "input") && bool_decide (type e = "email")).

Definition fieldsToValidate (pg : Page) (st : State) : list node :=
  filter (λ n, needs_validation (document st n) = true) (formDescendants pg).

(** [fieldsToValidate.forEach(field => { if (!validateField(field)) formIsValid = false; })] *)
Fixpoint validate_each (pg : Page) (fields : list node) (st : State) (formIsValid : bool)
  : State * bool :=
  match fields with
  | [] => (st, formIsValid)
  | field :: rest =>
      let '(st', ok) := validateField pg field st in
      validate_each pg rest st' (if ok then formIsValid else false)
  end.

(** ** The form data set

    [new FormData(contactForm)] for forms made of input, textarea, select and
    button elements (no [dirname] attribute, no datalist, no custom
    elements): a control contributes entries under its name when it is
    enabled, named, not a button, and, for a checkbox or a radio button,
    checked. *)

Inductive EntryValue :=
  | EntryString (s : code_units)
  | EntryFile.                       (* a File; JSON.stringify writes it as {} *)

Definition control_name (e : Element) : string := default "" (attributes e !! "name").

Definition is_button (e : Element) : bool :=
  bool_decide (tagName e = "button")
  || (bool_decide (tagName e = "input")
      && bool_decide (type e ∈ ["submit"; "button"; "reset"; "image"])).

Definition is_checkable (e : Element) : bool :=
  bool_decide (tagName e = "input") && bool_decide (type e ∈ ["checkbox"; "radio"]).

Definition ascii_lower (c : ascii) : ascii :=
  let n := N_of_ascii c in
  if ((65 <=? n) && (n <=? 90))%N then ascii_of_N (n + 32) else c.

Fixpoint string_lower (s : string) : string :=
  match s with
  | EmptyString => EmptyString
  | String c s' => String (ascii_lower c) (string_lower s')
  end.

Definition entries_of_control (e : Element) : list (string * EntryValue) :=
  if disabled e || is_button e || (is_checkable e && negb (checked e))
     || bool_decide (control_name e = "")
  then []
  else if bool_decide (tagName e = "select") then
    (λ v, (control_name e, EntryString v)) <$> selectedOptions e
  else if bool_decide (tagName e = "input") && bool_decide (type e = "file") then
    [(control_name e, EntryFile)]
  else if bool_decide (tagName e = "input") && bool_decide (type e = "hidden")
          && bool_decide (string_lower (control_name e) = "_charset_") then
    [(control_name e, EntryString (js "UTF-8"))]
  else [(control_name e, EntryString (value e))].

Definition FormData (pg : Page) (st : State) : list (string * EntryValue) :=
  n ← formControls pg; entries_of_control (document st n).

(** [Object.fromEntries]: a later entry replaces an earlier one of the same name. *)
Definition fromEntries (entries : list (string * EntryValue)) : gmap string EntryValue :=
  fold_left (λ obj p, <[p.1 := p.2]> obj) entries ∅.

(** A call of [fetch]; the body is the object that [JSON.stringify] writes. *)
Record Request := mkRequest {
  url : string;
  method : string;
  headers : list (string * string);
  body : gmap string EntryValue;
}.

Definition contact_endpoint : string := "http://127.0.0.1:5001/api/contact".

(** What the handler keeps across the [await]. *)
Record PendingSubmit := mkPending {
  validatedFields : list node;
  originalButtonText : string;
}.

(** The handler up to its first [await]: the page it leaves, the calls of
    [fetch] it made, and its continuation when it is suspended. *)
Record SubmitRun := mkSubmitRun {
  after : State;
  fetched : list Request;
  pending : option PendingSubmit;
}.

Definition error_classes : list string :=
  ["text-center"; "text-sm"; "text-red-600"; "font-semibold"].
Definition progress_classes : list string :=
  ["text-center"; "text-sm"; "text-sky-600"].
Definition success_classes : list string :=
  ["text-center"; "text-sm"; "text-green-600"; "font-semibold"].

Definition correct_errors_message : string :=
  "Por favor, corrija los errores en el formulario.".
Definition connection_error_message : string :=
  "Error de conexión. Verifique su red o inténtelo más tarde.".
Definition default_success_message : string := "¡Mensaje enviado con éxito!".
Definition default_failure_message : string :=
  "Error al enviar el mensaje. Inténtelo más tarde.".

(** [if (formMessageContainer) formMessageContainer.setAttribute("role", r)] *)
Definition set_role (pg : Page) (r : string) (st : State) : State :=
  match formMessageContainer pg with
  | Some c => setAttribute c "role" r st
  | None => st
  end.

Definition show_message (pg : Page) (msg : node) (text : string) (classes : list string)
    (role : string) (st : State) : State :=
  set_role pg role (set_className msg classes (set_textContent msg text st)).

(** [contactForm.addEventListener('submit', async (event) => ...)], up to
    the call of [fetch].  Without a submit button the handler stops with a
    TypeError once validation has passed. *)
Definition contactForm_submit (pg : Page) (msg : node) (st : State) : SubmitRun :=
  let fields := fieldsToValidate pg st in
  let '(st, formIsValid) := validate_each pg fields st true in
  if negb formIsValid then
    mkSubmitRun (show_message pg msg correct_errors_message error_classes "alert" st) [] None
  else
    match submitButton pg with
    | None => mkSubmitRun st [] None
    | Some b =>
        let originalButtonText := textContent (document st b) in
        let st := update b (with_disabled true) st in
        let st := set_textContent b "Enviando..." st in
        let st := set_textContent msg "Procesando su solicitud..." st in
        let st := set_className msg progress_classes st in
        let st := match formMessageContainer pg with
                  | Some c => removeAttribute c "role" st
                  | None => st
                  end in
        let dataToSend := fromEntries (FormData pg st) in
        mkSubmitRun st
          [mkRequest contact_endpoint "POST" [("Content-Type", "application/json")] dataToSend]
          (Some (mkPending fields originalButtonText))
    end.

(** ** The response

    A JSON value as [response.json()] returns it.  A number is kept as what
    the handler observes of it: whether it is truthy, and its string form. *)

Inductive Json :=
  | JNull
  | JBool (b : bool)
  | JNumber (nonzero : bool) (shown : string)
  | JString (s : string)
  | JArray (items : list Json)
  | JObject (members : list (string * Json)).

(** How the fetch settles: the promise of [fetch] rejects, or a response
    arrives whose body parses ([Some]) or does not ([None]). *)
Inductive FetchOutcome :=
  | NetworkError
  | Response (ok : bool) (parsed : option Json).

(** [ToBoolean] *)
Definition truthy (v : Json) : bool :=
  match v with
  | JNull => false
  | JBool b => b
  | JNumber nonzero _ => nonzero
  | JString s => negb (bool_decide (s = ""))
  | JArray _ | JObject _ => true
  end.

Definition join_comma (parts : list string) : string :=
  match parts with
  | [] => ""
  | p :: rest => fold_left (λ acc q, acc +:+ "," +:+ q) rest p
  end.

(** [ToString], as the [textContent] setter applies it: [None] when it
    throws a TypeError.  An object parsed from JSON inherits the [toString]
    of [Object.prototype] unless it has a member of that name; such a member
    is never a function, and then neither it nor [valueOf] yields a
    primitive.  An array is joined by commas, null items as empty strings. *)
Fixpoint to_text (v : Json) : option string :=
  match v with
  | JNull => Some "null"
  | JBool b => Some (if b then "true" else "false")
  | JNumber _ shown => Some shown
  | JString s => Some s
  | JArray items =>
      join_comma <$>
        (fix each (l : list Json) : option (list string) :=
           match l with
           | [] => Some []
           | i :: rest =>
               part ← match i with JNull => Some "" | _ => to_text i end;
               parts ← each rest;
               Some (part :: parts)
           end) items
  | JObject members =>
      if bool_decide ("toString" ∈ members.*1) then None else Some "[object Object]"
  end.

(** [result.message]: [None] when the access throws (result is null),
    [Some None] when the property is undefined. *)
Definition message_of (result : Json) : option (option Json) :=
  match result with
  | JNull => None
  | JObject members => Some (snd <$> list.last (filter (λ p, p.1 = "message") members))
  | _ => Some None
  end.

(** [message || fallback], converted to a string by the setter. *)
Definition or_default (message : option Json) (fallback : string) : option string :=
  match message with
  | Some v => if truthy v then to_text v else Some fallback
  | None => Some fallback
  end.

(** [contactForm.reset()] *)
Definition reset_form (pg : Page) (st : State) : State :=
  fold_left (λ st n, update n reset_control st) (formControls pg) st.

(** The loop that clears the error styling of the validated fields. *)
Definition clear_errors (pg : Page) (fields : list node) (st : State) : State :=
  fold_left
    (λ st field,
       let st := classList_remove field "border-red-500" st in
       match errorElement_for pg st field with
       | Some e => classList_add e "hidden" st
       | None => st
       end)
    fields st.

(** The [try] block after [await fetch(...)]: [None] when it throws, which
    it does before it has changed anything: at [response.json()], at
    [result.message], or in the setter of [textContent], the first statement
    of either branch. *)
Definition on_response (pg : Page) (msg : node) (k : PendingSubmit)
    (ok : bool) (parsed : option Json) (st : State) : option State :=
  result ← parsed;
  message ← message_of result;
  if ok then
    text ← or_default message default_success_message;
    let st := show_message pg msg text success_classes "status" st in
    let st := reset_form pg st in
    Some (clear_errors pg (validatedFields k) st)
  else
    text ← or_default message default_failure_message;
    Some (show_message pg msg text error_classes "alert" st).

(** The [catch] block. *)
Definition on_error (pg : Page) (msg : node) (st : State) : State :=
  show_message pg msg connection_error_message error_classes "alert" st.

(** The [finally] block; its timer does nothing. *)
Definition restore_button (pg : Page) (k : PendingSubmit) (st : State) : State :=
  match submitButton pg with
  | Some b => set_textContent b (originalButtonText k) (update b (with_disabled false) st)
  | None => st
  end.

(** The submit handler from the point where the fetch settles. *)
Definition contactForm_settled (pg : Page) (msg : node) (k : PendingSubmit)
    (o : FetchOutcome) (st : State) : State :=
  let st' :=
    match o with
    | NetworkError => on_error pg msg st
    | Response ok parsed =>
        match on_response pg msg k ok parsed st with
        | Some st' => st'
        | None => on_error pg msg st
        end
    end in
  restore_button pg k st'.

(** * setupFadeInAnimations *)

Record IntersectionObserverEntry := mkEntry {
  target : node;
  isIntersecting : bool;
}.

(** [{ root: null, rootMargin: '0px', threshold: 0.15 }] *)
Definition observerOptions : ObserverOptions := mkOptions None "0px" (15 # 100).

(** Behind its guard, the setup function creates the observer, which has
    no target yet, and has it observe every fade-in section. *)
Definition setupFadeInAnimations (pg : Page) (st : State) : State :=
  if bool_decide (sectionsToFadeIn pg = []) || negb (hasIntersectionObserver pg) then st
  else
    let st := mkState (document st) (pageYOffset st) (innerWidth st)
                (Some observerOptions) [] in
    fold_left (λ st section, observe section st) (sectionsToFadeIn pg) st.

Definition intersectionCallback (entries : list IntersectionObserverEntry) (st : State) : State :=
  fold_left
    (λ st entry,
       if isIntersecting entry then
         unobserve (target entry) (classList_add (target entry) "is-visible" st)
       else st)
    entries st.

(** * setupSmoothScrollingAndActiveNav *)

(** The offset that the click handler subtracts from the target position. *)
Inductive HeaderOffset :=
  | NavbarPlus20        (* navbarHeight + 20 *)
  | NavbarOver1_5       (* navbarHeight / 1.5 *)
  | NoOffset.           (* 0 *)

(** A call of [window.scrollTo]: to the top of [scrollTarget] less the offset. *)
Record ScrollRequest := mkScroll {
  scrollTarget : node;
  headerOffset : HeaderOffset;
}.

Definition startsWith (p s : string) : bool := bool_decide (String.prefix p s = true).

Definition close_mobile_menu (pg : Page) (m : node) (st : State) : State :=
  let st := classList_add m "hidden" st in
  match mobileMenuButton pg with
  | Some b =>
      let st := setAttribute b "aria-expanded" "false" st in
      match menuIcon pg with
      | Some i => classList_add i "fa-bars" (classList_remove i "fa-times" st)
      | None => st
      end
  | None => st
  end.

(** [anchor.addEventListener('click', function (event) ...)] for each of
    [allNavLinks]; [this] is the link clicked. *)
Definition anchor_click (pg : Page) (this : node) (st : State) : State * option ScrollRequest :=
  match getAttribute st this "href" with
  | Some targetId =>
      if negb (bool_decide (targetId = "")) && startsWith "#" targetId then
        match querySelector pg targetId with
        | Some targetElement =>
            let headerOffset :=
              if (innerWidth st <? 768) && bool_decide (targetId = "#inicio") then NavbarOver1_5
              else if bool_decide (targetId = "#inicio") then NoOffset
              else NavbarPlus20 in
            let st :=
              match mobileMenu pg with
              | Some m =>
                  if negb (contains st m "hidden") && bool_decide (this ∈ mobileMenuLinks pg)
                  then close_mobile_menu pg m st
                  else st
              | None => st
              end in
            (st, Some (mkScroll targetElement headerOffset))
        | None => (st, None)
        end
      else (st, None)
  | None => (st, None)
  end.

(** [section.offsetTop - navbarHeight - 60] *)
Definition sectionTop (pg : Page) (st : State) (section : node) : Z :=
  offsetTop (document st section) - navbarHeight pg - 60.

(** [scrollPosition >= sectionTop] *)
Definition reached (pg : Page) (st : State) (section : node) : bool :=
  Qle_bool (inject_Z (sectionTop pg st section)) (pageYOffset st).

(** The loop over the sections: the id of the last one reached. *)
Definition scan_sections (pg : Page) (st : State) : string :=
  fold_left (λ current section, if reached pg st section then element_id st section else current)
    (sectionsForNavHighlight pg) "".

Definition currentSectionId (pg : Page) (st : State) : string :=
  let current := scan_sections pg st in
  if bool_decide (current = "")
     && match sectionsForNavHighlight pg with
        | first :: _ =>
            bool_decide (element_id st first = "inicio")
            && negb (Qle_bool (inject_Z (offsetTop (document st first))) (pageYOffset st))
        | [] => false
        end
  then "inicio"
  else current.

Definition mark_link (current : string) (st : State) (link : node) : State :=
  let st := classList_remove link "nav-link-active" st in
  if bool_decide (getAttribute st link "href" = Some ("#" +:+ current))
  then classList_add link "nav-link-active" st
  else st.

Definition updateActiveState (pg : Page) (st : State) : State :=
  fold_left (mark_link (currentSectionId pg st))
    (desktopMenuLinks pg ++ mobileMenuLinks pg) st.

(** * Events

    What can happen to the page once the listeners are installed: the events
    that the script listens to, and what the user does to the window and the
    controls.  A listener exists only if its setup function got past its
    guard. *)

Inductive Event :=
  | MenuButtonClick
  | MobileMenuLinkClick (link : node)
  | AnchorClick (anchor : node)
  | FieldBlur (field : node)
  | FormSubmit
  | FetchSettled (k : PendingSubmit) (o : FetchOutcome)
  | Intersection (entries : list IntersectionObserverEntry)
  | ScrollTimer                              (* the debounced updateActiveState *)
  | UserInput (control : node) (v : code_units)
  | UserCheck (control : node) (b : bool)
  | UserSelect (control : node) (v : code_units) (options : list code_units)
  | UserScroll (y : Q).

Definition handle (pg : Page) (ev : Event) (st : State) : State :=
  match ev with
  | MenuButtonClick =>
      match mobileMenuButton pg, mobileMenu pg with
      | Some b, Some m => mobileMenuButton_click b m (menuIcon pg) st
      | _, _ => st
      end
  | MobileMenuLinkClick link =>
      match mobileMenuButton pg, mobileMenu pg with
      | Some b, Some m =>
          if bool_decide (link ∈ mobileMenuLinks pg)
          then mobileMenuLink_click b m (menuIcon pg) st else st
      | _, _ => st
      end
  | AnchorClick anchor =>
      match headerNav pg with
      | Some _ => if bool_decide (anchor ∈ allNavLinks pg) then (anchor_click pg anchor st).1 else st
      | None => st
      end
  | FieldBlur field =>
      match contactForm pg, formMessageElement pg with
      | Some _, Some _ =>
          if bool_decide (field ∈ fieldsToValidate pg st) then (validateField pg field st).1 else st
      | _, _ => st
      end
  | FormSubmit =>
      match contactForm pg, formMessageElement pg with
      | Some _, Some msg => after (contactForm_submit pg msg st)
      | _, _ => st
      end
  | FetchSettled k o =>
      match contactForm pg, formMessageElement pg with
      | Some _, Some msg => contactForm_settled pg msg k o st
      | _, _ => st
      end
  | Intersection entries =>
      if hasIntersectionObserver pg && negb (bool_decide (sectionsToFadeIn pg = []))
      then intersectionCallback entries st else st
  | ScrollTimer =>
      match headerNav pg with
      | Some _ =>
          if bool_decide (sectionsForNavHighlight pg = []) then st else updateActiveState pg st
      | None => st
      end
  | UserInput control v => update control (with_value v) st
  | UserCheck control b => update control (with_checked b) st
  | UserSelect control v options =>
      update control (with_selectedOptions options) (update control (with_value v) st)
  | UserScroll y => mkState (document st) y (innerWidth st) (observer st) (observed st)
  end.

Definition run (pg : Page) (events : list Event) (st : State) : State :=
  fold_left (λ st ev, handle pg ev st) events st.

(** * Predicates of the specification *)

(** The flag, the panel and the icon of the mobile menu agree. *)
Definition expanded (st : State) (button : node) : Prop :=
  getAttribute st button "aria-expanded" = Some "true".

Definition menu_consistent (button menu : node) (icon : option node) (st : State) : Prop :=
  (expanded st button ↔ "hidden" ∉ classList (document st menu))
  ∧ ∀ i, icon = Some i →
      ("hidden" ∉ classList (document st menu)
       ↔ "fa-times" ∈ classList (document st i) ∧ "fa-bars" ∉ classList (document st i)).

(** The icon alone agrees with the flag. *)
Definition icon_follows_flag (button : node) (icon : option node) (st : State) : Prop :=
  ∀ i, icon = Some i →
    ("fa-times" ∈ classList (document st i) ↔ expanded st button)
    ∧ ("fa-bars" ∈ classList (document st i) ↔ ¬ expanded st button).

(** The flag, the visibility class and the icon glyph are the same in two states. *)
Definition same_menu (button menu : node) (icon : option node) (st st' : State) : Prop :=
  (expanded st' button ↔ expanded st button)
  ∧ ("hidden" ∈ classList (document st' menu) ↔ "hidden" ∈ classList (document st menu))
  ∧ ∀ i, icon = Some i →
      ("fa-bars" ∈ classList (document st' i) ↔ "fa-bars" ∈ classList (document st i))
      ∧ ("fa-times" ∈ classList (document st' i) ↔ "fa-times" ∈ classList (document st i)).

Definition field_valid (e : Element) : bool := (check_field e).1.

(** Every required and e-mail field of the form passes [validateField]. *)
Definition all_valid (pg : Page) (st : State) : Prop :=
  ∀ f, f ∈ fieldsToValidate pg st → (validateField pg f st).2 = true.

Definition role_of (pg : Page) (st : State) (r : string) : Prop :=
  ∀ c, formMessageContainer pg = Some c → getAttribute st c "role" = Some r.

(** The names of the controls of the form. *)
Definition field_names (pg : Page) (st : State) : list string :=
  filter (λ name, name ≠ "") ((λ n, control_name (document st n)) <$> formControls pg).

(** The last section, in document order, that the scroll position has reached. *)
Definition last_reached (pg : Page) (st : State) : option node :=
  list.last (filter (λ s, reached pg st s = true) (sectionsForNavHighlight pg)).

Definition nav_links (pg : Page) : list node := desktopMenuLinks pg ++ mobileMenuLinks pg.

Definition active (st : State) (link : node) : Prop :=
  "nav-link-active" ∈ classList (document st link).

Definition visible (st : State) (section : node) : Prop :=
  "is-visible" ∈ classList (document st section).

(** An element without its presentation (classes and text): what the
    handlers read of a control. *)
Definition data_of (e : Element) : Element :=
  with_textContent "" (with_classList (λ _, []) e).

(** Empty, or white space only. *)
Definition blank (v : code_units) : Prop := Forall (λ c, is_space c = true) v.

(** A control that contributes to the form data set. *)
Definition successful (e : Element) : bool :=
  negb (disabled e || is_button e || (is_checkable e && negb (checked e))
        || bool_decide (control_name e = ""))
  && (if bool_decide (tagName e = "select")
      then negb (bool_decide (selectedOptions e = [])) else true).

(** The fields that a submission validates: the inputs and textareas that
    have the required attribute, and the inputs of type email. *)
Definition required_or_email (e : Element) : Prop :=
  ((tagName e = "input" ∨ tagName e = "textarea") ∧ is_Some (attributes e !! "required"))
  ∨ (tagName e = "input" ∧ type e = "email").

(** What validation asks of a field: a required field is not blank, and an
    e-mail field that is not blank holds an address of the documented shape. *)
Definition acceptable (e : Element) : Prop :=
  (is_Some (attributes e !! "required") → ¬ blank (value e))
  ∧ (type e = "email" → ¬ blank (value e) → email_shape (trim (value e))).

Definition fields_acceptable (pg : Page) (st : State) : Prop :=
  ∀ f, f ∈ formDescendants pg →
    required_or_email (document st f) → acceptable (document st f).

(** What a reset reads and writes of an element. *)
Definition control_data (e : Element) :=
  (tagName e, type e, (value e, checked e, selectedOptions e),
   (resetValue e, resetChecked e, resetSelected e)).

(** A control whose value is what the user typed or chose: a textarea, a
    select, or an input whose [value] property is neither its value
    attribute nor a file name. *)
Definition holds_entered_value (e : Element) : Prop :=
  tagName e = "textarea" ∨ tagName e = "select"
  ∨ (tagName e = "input"
     ∧ type e ∉ ["checkbox"; "radio"; "hidden"; "submit"; "image"; "reset"; "button"; "file"]).

(** What the state of a control is, and what a reset restores of it. *)
Definition same_reset_data (before after : Element) : Prop :=
  resetValue after = resetValue before
  ∧ resetChecked after = resetChecked before
  ∧ resetSelected after = resetSelected before.

(** [after] is the control [before], reset: what the user typed, ticked and
    selected is replaced by what the markup of the page gives, which itself
    stays as it was. *)
Definition was_reset (before after : Element) : Prop :=
  (holds_entered_value before → value after = resetValue before)
  ∧ (tagName before = "input" → type before = "file" → value after = [])
  ∧ (¬ holds_entered_value before → ¬ (tagName before = "input" ∧ type before = "file") →
     value after = value before)
  ∧ (tagName before = "input" → checked after = resetChecked before)
  ∧ (tagName before ≠ "input" → checked after = checked before)
  ∧ (tagName before = "select" → selectedOptions after = resetSelected before)
  ∧ (tagName before ≠ "select" → selectedOptions after = selectedOptions before)
  ∧ same_reset_data before after.

(** What the user entered in a control is the same in two states. *)
Definition same_entries (before after : Element) : Prop :=
  value after = value before ∧ checked after = checked before
  ∧ selectedOptions after = selectedOptions before
  ∧ same_reset_data before after.



(** ** Sample pages *)

Definition blank_element : Element :=
  mkElement "div" "" ∅ [] "" [] false [] [] false [] false 0.

Definition element (tag : string) (attrs : list (string * string)) (classes : list string)
  : Element :=
  mkElement tag "" (list_to_map attrs) classes "" [] false [] [] false [] false 0.

Definition control (tag ty : string) (attrs : list (string * string)) (v : code_units)
    (is_checked : bool) : Element :=
  mkElement tag ty (list_to_map attrs) [] "" v is_checked [] [] false [] false 0.

Definition section_at (id : string) (top : Z) : Element :=
  mkElement "section" "" {[ "id" := id ]} [] "" [] false [] [] false [] false top.

Definition state_of (elements : list Element) (scroll : Q) : State :=
  mkState (λ n, default blank_element (elements !! n)) scroll 1024 None [].

(** Everything of an element but its text and its disabled flag. *)
Definition but_button_state (e : Element) : Element :=
  with_disabled false (with_textContent "" e).

(** Everything of an element but its classes. *)
Definition but_classes (e : Element) : Element := with_classList (λ _, []) e.


(** The keys of every body sent are the names of the controls of the form. *)
Definition keys_are_field_names (pg : Page) (msg : node) (st : State) : Prop :=
  ∀ req, req ∈ fetched (contactForm_submit pg msg st) →
    ∀ k, k ∈ dom (body req) ↔ k ∈ field_names pg st.

(** A form with a required name, an optional check box and a submit button,
    followed by the paragraph for messages. *)
Definition newsletter_form (name : string) (subscribed : bool) : State :=
  state_of
    [ element "form" [("id", "contactForm")] [];
      control "input" "text" [("name", "nombre"); ("required", "")] (js name) false;
      control "input" "checkbox" [("name", "boletin")] (js "on") subscribed;
      control "button" "submit" [("type", "submit")] [] false;
      element "p" [("id", "formMessage")] [] ]
    0.

Definition newsletter_page : Page :=
  mkPage None None None [] [] [] (Some 0%nat) [1; 2; 3; 4]%nat [1; 2; 3]%nat (Some 3%nat)
    None (Some 4%nat) [] [] None 0 (λ _, None) true.

(** The message of a response body, as the specification speaks of it: the
    value of the member named message of an object, the last one if the
    name is repeated; a body that is not an object has none. *)
Definition supplied_message (result : Json) (message : option Json) : Prop :=
  (∀ before v after,
     result = JObject (before ++ ("message", v) :: after) → ("message" ∉ after.*1) →
     message = Some v)
  ∧ (∀ members, result = JObject members → ("message" ∉ members.*1) → message = None)
  ∧ ((∀ members, result ≠ JObject members) → message = None).

(** The banner shows a message that the server supplies. *)
Definition shows_supplied_message (pg : Page) (msg : node) (k : PendingSubmit)
    (ok : bool) (st : State) : Prop :=
  ∀ result s,
    message_of result = Some (Some (JString s)) →
    textContent (document (contactForm_settled pg msg k (Response ok (Some result)) st) msg) = s.

(** The handler of the form above, suspended after a submission. *)
Definition newsletter_pending : PendingSubmit := mkPending [1%nat] "Enviar".

(** A mobile menu: the button, the panel, the icon and one link. *)
Definition menu_page : Page :=
  mkPage (Some 0%nat) (Some 1%nat) (Some 2%nat) [] [3%nat] [3%nat] None [] [] None
    None None [] [] (Some 4%nat) 64 (λ _, None) true.

Definition menu_state (flag : string) (panel glyph : list string) : State :=
  state_of
    [ element "button" [("id", "mobile-menu-button"); ("aria-expanded", flag)] [];
      element "div" [("id", "mobile-menu")] panel;
      element "i" [] glyph;
      element "a" [("href", "#inicio")] ["nav-link"];
      element "nav" [] [] ]
    0.

(** Two sections with a link each, under a navigation bar 64 high. *)
Definition sections_page : Page :=
  mkPage None None None [2; 3]%nat [] [2; 3]%nat None [] [] None
    None None [0; 1]%nat [0; 1]%nat (Some 4%nat) 64 (λ _, None) true.

Definition sections_state (scroll : Q) : State :=
  state_of
    [ section_at "inicio" 0;
      section_at "servicios" 600;
      element "a" [("href", "#inicio")] ["nav-link"];
      element "a" [("href", "#servicios")] ["nav-link"];
      element "nav" [] [] ]
    scroll.

(** A form with one e-mail field. *)
Definition email_form (address : string) : State :=
  state_of
    [ element "form" [("id", "contactForm")] [];
      control "input" "email" [("name", "email"); ("required", "")] (js address) false ]
    0.

(** Every field of the form that is required or an e-mail field passes
    [validateField]. *)
Definition required_fields_valid (pg : Page) (st : State) : Prop :=
  ∀ f, f ∈ formControls pg →
    is_Some (attributes (document st f) !! "required") ∨ type (document st f) = "email" →
    (validateField pg f st).2 = true.

(** A request is made exactly when they all pass. *)
Definition posts_iff_required_valid (pg : Page) (msg : node) (st : State) : Prop :=
  fetched (contactForm_submit pg msg st) ≠ [] ↔ required_fields_valid pg st.

(** A form whose one field is a required select left on its empty first
    option, with a submit button and the paragraph for messages. *)
Definition quote_form : State :=
  state_of
    [ element "form" [("id", "contactForm")] [];
      mkElement "select" "select-one" (list_to_map [("name", "seguro"); ("required", "")])
        [] "" [] false [[]] [] false [[]] false 0;
      control "button" "submit" [("type", "submit")] [] false;
      element "p" [("id", "formMessage")] [] ]
    0.

Definition quote_page : Page :=
  mkPage None None None [] [] [] (Some 0%nat) [1; 2; 3]%nat [1; 2]%nat (Some 2%nat)
    None (Some 3%nat) [] [] None 0 (λ _, None) true.

(** The links marked by a run of [updateActiveState] are those whose href
    names the last section, in document order, whose adjusted top the scroll
    position has reached. *)
Definition marks_last_reached (pg : Page) (st : State) : Prop :=
  ∀ before s after,
    sectionsForNavHighlight pg = before ++ s :: after →
    (inject_Z (offsetTop (document st s) - navbarHeight pg - 60) <= pageYOffset st)%Q →
    (∀ x, x ∈ after →
       (pageYOffset st < inject_Z (offsetTop (document st x) - navbarHeight pg - 60))%Q) →
    ∀ link, link ∈ nav_links pg →
      (active (updateActiveState pg st) link
       ↔ getAttribute st link "href" = Some ("#" +:+ element_id st s)).

(** The section 'inicio' at 100 and, just below it, a section whose id
    attribute is empty; a link to '#inicio' and a link to '#'. *)
Definition unnamed_section_page : Page :=
  mkPage None None None [2; 3]%nat [] [2; 3]%nat None [] [] None
    None None [] [0; 1]%nat (Some 4%nat) 64 (λ _, None) true.

Definition unnamed_section_state : State :=
  state_of
    [ section_at "inicio" 100;
      section_at "" 110;
      element "a" [("href", "#inicio")] ["nav-link"];
      element "a" [("href", "#")] ["nav-link"];
      element "nav" [] [] ]
    0.

(** An element that is visible stays visible, whatever happens on the page. *)
Definition never_hidden_again (pg : Page) (st : State) (section : node) : Prop :=
  visible st section → ∀ events, visible (run pg events st) section.

(** The newsletter form on a page where the paragraph for messages is a
    fade-in section. *)
Definition fading_message_page : Page :=
  mkPage None None None [] [] [] (Some 0%nat) [1; 2; 3; 4]%nat [1; 2; 3]%nat (Some 3%nat)
    None (Some 4%nat) [4%nat] [] None 0 (λ _, None) true.

(** That page once the observer has reported the paragraph as intersecting. *)
Definition fading_message_state : State :=
  handle fading_message_page (Intersection [mkEntry 4%nat true])
    (setupFadeInAnimations fading_message_page (newsletter_form "" false)).

(** * The scroll listener

    [let scrollTimeout;
     window.addEventListener('scroll', () => {
       clearTimeout(scrollTimeout);
       scrollTimeout = setTimeout(updateActiveState, 100); });]
    A timeout is named by the id that [setTimeout] returned for it; the
    window hands out a fresh id at every call, also to the other timer of
    the script (the one the submit handler sets). *)

Record Timers := mkTimers {
  scheduled : list nat;         (* the calls of updateActiveState still waiting *)
  scrollTimeout : option nat;   (* the variable of the listener *)
  nextTimer : nat;              (* the id that the next setTimeout returns *)
}.

(** [clearTimeout(id)]; nothing happens for undefined or for an id that is
    not waiting. *)
Definition clearTimeout (id : option nat) (waiting : list nat) : list nat :=
  match id with
  | Some i => filter (λ j, j ≠ i) waiting
  | None => waiting
  end.

(** The listener of the scroll event. *)
Definition window_scroll (t : Timers) : Timers :=
  mkTimers (clearTimeout (scrollTimeout t) (scheduled t) ++ [nextTimer t])
    (Some (nextTimer t)) (S (nextTimer t)).

Inductive ScrollEvent :=
  | WindowScroll (y : Q)        (* the window has scrolled to y *)
  | TimeoutElapsed (id : nat)   (* the delay of a timeout has passed *)
  | OtherTimeout.               (* setTimeout is called elsewhere *)

(** The timers, the page and the number of runs of updateActiveState. *)
Definition scroll_step (pg : Page) (s : Timers * State * nat) (ev : ScrollEvent)
  : Timers * State * nat :=
  let '(t, st, runs) := s in
  match ev with
  | WindowScroll y =>
      (window_scroll t, mkState (document st) y (innerWidth st) (observer st) (observed st), runs)
  | TimeoutElapsed id =>
      if bool_decide (id ∈ scheduled t) then
        (mkTimers (filter (λ j, j ≠ id) (scheduled t)) (scrollTimeout t) (nextTimer t),
         updateActiveState pg st, S runs)
      else s
  | OtherTimeout => (mkTimers (scheduled t) (scrollTimeout t) (S (nextTimer t)), st, runs)
  end.

Definition scroll_run (pg : Page) (events : list ScrollEvent) (s : Timers * State * nat)
  : Timers * State * nat :=
  fold_left (scroll_step pg) events s.

(** The timers when the listener is installed. *)
Definition no_timers (next : nat) : Timers := mkTimers [] None next.

Definition is_scroll (ev : ScrollEvent) : bool :=
  match ev with WindowScroll _ => true | _ => false end.

Definition scroll_count (events : list ScrollEvent) : nat :=
  length (filter (λ ev, is_scroll ev = true) events).

(** The form of [newsletter_page] without its submit button. *)
Definition buttonless_page : Page :=
  mkPage None None None [] [] [] (Some 0%nat) [1; 2; 4]%nat [1; 2]%nat None
    None (Some 4%nat) [] [] None 0 (λ _, None) true.

(** * Properties of strings and patterns *)

Lemma trimStart_nil_iff s : trimStart s = [] ↔ Forall (λ c, is_space c = true) s.
Proof.
  induction s as [|c s IH]; simpl.
  - split; [constructor | done].
  - destruct (is_space c) eqn:Hc.
    + rewrite IH. split; [by constructor | by inversion 1].
    + split; [done | inversion 1; congruence].
Qed.

Lemma trimStart_suffix s : ∃ p, s = p ++ trimStart s ∧ Forall (λ c, is_space c = true) p.
Proof.
  induction s as [|c s (p & Hp & Hsp)]; simpl.
  - by exists [].
  - destruct (is_space c) eqn:Hc.
    + exists (c :: p). split; [simpl; congruence | by constructor].
    + by exists [].
Qed.

(** [trim] leaves nothing exactly when the value is empty or all white space. *)
Lemma trim_nil_iff s : trim s = [] ↔ Forall (λ c, is_space c = true) s.
Proof.
  unfold trim, trimEnd. split.
  - intros H. apply (f_equal reverse) in H. rewrite reverse_involutive in H.
    change (reverse []) with (@nil N) in H.
    apply trimStart_nil_iff in H. apply Forall_reverse in H.
    destruct (trimStart_suffix s) as (p & Hs & Hp).
    rewrite Hs. apply Forall_app. split; [done|].
    by rewrite reverse_involutive in H.
  - intros H. apply trimStart_nil_iff in H. rewrite H. done.
Qed.

Lemma nullable_matches r : nullable r = true ↔ matches r [].
Proof.
  split.
  - induction r; simpl; intros H; try done.
    + constructor.
    + apply andb_prop in H as [H1 H2].
      change (@nil N) with (@nil N ++ []). constructor; auto.
    + apply orb_prop in H as [H|H]; [apply matches_alt_l | apply matches_alt_r]; auto.
    + constructor.
  - intros H. remember [] as s eqn:Hs. induction H; simpl; try done.
    + destruct (app_eq_nil _ _ Hs) as [-> ->].
      by rewrite IHmatches1, IHmatches2.
    + by rewrite IHmatches.
    + rewrite IHmatches by done. apply orb_true_r.
Qed.

Lemma matches_star_cons_inv r c s :
  matches (ReStar r) (c :: s) →
  ∃ s1 s2, s = s1 ++ s2 ∧ matches r (c :: s1) ∧ matches (ReStar r) s2.
Proof.
  intros H. remember (ReStar r) as r' eqn:Hr. remember (c :: s) as w eqn:Hw.
  revert s Hw. induction H; intros s' Hw; try done.
  injection Hr as ->.
  destruct s1 as [|c1 s1]; simpl in Hw.
  - by apply IHmatches2.
  - injection Hw as <- <-. by exists s1, s2.
Qed.

Lemma matches_deriv c r s : matches (deriv c r) s ↔ matches r (c :: s).
Proof.
  revert s. induction r as [| |k|items|r1 IH1 r2 IH2|r1 IH1 r2 IH2|r IH]; intros s; simpl.
  - split; inversion 1.
  - split; inversion 1.
  - destruct (N.eqb_spec c k) as [->|Hne].
    + split; inversion 1; subst; constructor.
    + split; inversion 1; congruence.
  - destruct (not_in items c) eqn:Hc.
    + split; inversion 1; subst; by constructor.
    + split; inversion 1; congruence.
  - assert (Hseq : ∀ s, matches (ReSeq (deriv c r1) r2) s →
                        matches (ReSeq r1 r2) (c :: s)).
    { intros s' H. inversion H; subst.
      change (c :: s1 ++ s2) with ((c :: s1) ++ s2). constructor; [by apply IH1|done]. }
    split.
    + destruct (nullable r1) eqn:Hn.
      * inversion 1; subst; [by apply Hseq|].
        change (c :: s) with ([] ++ c :: s).
        constructor; [by apply nullable_matches | by apply IH2].
      * apply Hseq.
    + inversion 1 as [| | |? ? s1 s2 H1 H2| | | |]; subst.
      destruct s1 as [|c1 s1]; simplify_eq/=.
      * apply nullable_matches in H1. rewrite H1.
        apply matches_alt_r. by apply IH2.
      * assert (matches (ReSeq (deriv c r1) r2) (s1 ++ s2))
          by (constructor; [by apply IH1|done]).
        destruct (nullable r1); [by apply matches_alt_l|done].
  - split; inversion 1; subst;
      (apply matches_alt_l; by apply IH1) || (apply matches_alt_r; by apply IH2).
  - split.
    + inversion 1; subst.
      change (c :: s1 ++ s2) with ((c :: s1) ++ s2). constructor; [by apply IH|done].
    + intros (s1 & s2 & -> & H1 & H2)%matches_star_cons_inv.
      constructor; [by apply IH|done].
Qed.

(** The matcher decides the denotation. *)
Lemma test_matches r s : test r s = true ↔ matches r s.
Proof.
  revert r. induction s as [|c s IH]; intros r; simpl.
  - apply nullable_matches.
  - rewrite IH. apply matches_deriv.
Qed.

Lemma matches_plus_atom s :
  matches (RePlus email_atom) s ↔ s ≠ [] ∧ Forall atom_char s.
Proof.
  assert (Hatom : ∀ c, not_in [ClassSpace; ClassChar at_sign] c = true ↔ atom_char c).
  { intros c. unfold not_in, atom_char. simpl.
    destruct (is_space c), (N.eqb_spec c at_sign); simpl; intuition congruence. }
  assert (Hstar : ∀ s, matches (ReStar email_atom) s ↔ Forall atom_char s).
  { intros s'. split.
    - intros H. remember (ReStar email_atom) as r eqn:Hr.
      induction H; try done.
      injection Hr as ->. apply Forall_app. split; [|by apply IHmatches2].
      inversion H; subst. constructor; [by apply Hatom|constructor].
    - induction 1 as [|c s' Hc _ IH]; [constructor|].
      change (c :: s') with ([c] ++ s'). constructor; [|done].
      constructor. by apply Hatom. }
  unfold RePlus. split.
  - inversion 1 as [| | |? ? s1 s2 H1 H2| | | |]; subst.
    inversion H1; subst. split; [done|].
    constructor; [by apply Hatom | by apply Hstar].
  - intros [Hne Hall]. destruct s as [|c s]; [done|].
    inversion Hall; subst.
    change (c :: s) with ([c] ++ s).
    constructor; [constructor; by apply Hatom | by apply Hstar].
Qed.

(** The pattern accepts exactly the strings of the documented shape. *)
Lemma email_pattern_shape s : test email_pattern s = true ↔ email_shape s.
Proof.
  rewrite test_matches. unfold email_pattern, email_shape. split.
  - inversion 1 as [| | |? ? l s2 Hl H2| | | |]; subst.
    inversion H2 as [| | |? ? a s3 Ha H3| | | |]; subst.
    inversion H3 as [| | |? ? d s4 Hd H4| | | |]; subst.
    inversion H4 as [| | |? ? p t Hp Ht| | | |]; subst.
    inversion Ha; subst. inversion Hp; subst.
    apply matches_plus_atom in Hl as [? ?], Hd as [? ?], Ht as [? ?].
    by exists l, d, t.
  - intros (l & d & t & -> & ? & ? & ? & ? & ? & ?).
    repeat constructor; by apply matches_plus_atom.
Qed.

(** What the shape entails: no white space, one at-sign, and a full stop
    somewhere after it with text on both sides. *)
Lemma email_shape_entails s :
  email_shape s →
  Forall (λ c, is_space c = false) s
  ∧ length (filter (λ c, c = at_sign) s) = 1%nat
  ∧ ∃ l d, s = l ++ [at_sign] ++ d ∧ full_stop ∈ d.
Proof.
  intros (l & d & t & -> & _ & _ & _ & Hl & Hd & Ht).
  assert (Hsp : ∀ x, Forall atom_char x → Forall (λ c, is_space c = false) x).
  { intros x. apply Forall_impl. by intros c [? _]. }
  assert (Hct : ∀ x, Forall atom_char x → filter (λ c, c = at_sign) x = []).
  { intros x Hx. induction Hx as [|c x [_ Hc] _ IH]; [done|].
    rewrite filter_cons. by destruct (decide (c = at_sign)). }
  split; [|split].
  - rewrite !Forall_app. repeat split; auto; by repeat constructor.
  - rewrite !list.filter_app, (Hct l), (Hct d), (Hct t) by done. done.
  - exists l, (d ++ [full_stop] ++ t). split; [done|]. set_solver.
Qed.

(** * Properties of the element store *)

Lemma alter_apply (f : Element → Element) n (d : node → Element) x :
  alter f n d x = if decide (n = x) then f (d x) else d x.
Proof. unfold alter, fn_alter. by case_decide; subst. Qed.

Lemma elem_of_token_add x t l : x ∈ token_add t l ↔ x = t ∨ x ∈ l.
Proof. unfold token_add. case_decide; set_solver. Qed.

Lemma elem_of_token_remove x t l : x ∈ token_remove t l ↔ x ≠ t ∧ x ∈ l.
Proof. unfold token_remove. by rewrite list_elem_of_filter. Qed.

Lemma elem_of_token_toggle x t l :
  x ∈ token_toggle t l ↔ (x = t ∧ t ∉ l) ∨ (x ≠ t ∧ x ∈ l).
Proof.
  unfold token_toggle. case_decide.
  - rewrite elem_of_token_remove. naive_solver.
  - rewrite elem_of_app, list_elem_of_singleton.
    destruct (decide (x = t)); naive_solver.
Qed.

Lemma elem_of_token_force x t b l :
  x ∈ token_force t b l ↔ (x = t ∧ b = true) ∨ (x ≠ t ∧ x ∈ l) ∨ (x ∈ l ∧ b = true).
Proof.
  unfold token_force. destruct b.
  - rewrite elem_of_token_add. destruct (decide (x = t)); naive_solver.
  - rewrite elem_of_token_remove. naive_solver.
Qed.

(** Unfolds the DOM operations to updates of the store and splits on
    whether two handles denote the same element. *)
Ltac dom_unfold :=
  unfold setAttribute, removeAttribute, classList_add, classList_remove,
    classList_toggle, classList_force, set_className, set_textContent,
    contains, getAttribute, element_id, update in *;
  cbn [document pageYOffset innerWidth observer observed] in *.

Ltac dom_cases :=
  dom_unfold; rewrite ?alter_apply in *;
  repeat case_decide; simplify_eq/=.

Ltac tokens :=
  repeat (rewrite elem_of_token_add in * || rewrite elem_of_token_remove in *
          || rewrite elem_of_token_toggle in * || rewrite elem_of_token_force in * ).

Ltac token_solver := tokens; intuition (discriminate || congruence || auto).

(** * The mobile menu *)

Lemma mobileMenuButton_click_expanded button menu icon st :
  expanded (mobileMenuButton_click button menu icon st) button ↔ ¬ expanded st button.
Proof.
  unfold expanded, mobileMenuButton_click.
  destruct icon; case_bool_decide; dom_cases;
    rewrite ?lookup_insert_eq; naive_solver.
Qed.

Lemma mobileMenuButton_click_hidden button menu icon st :
  "hidden" ∈ classList (document (mobileMenuButton_click button menu icon st) menu)
  ↔ "hidden" ∉ classList (document st menu).
Proof.
  unfold mobileMenuButton_click.
  destruct icon; case_bool_decide; dom_cases; token_solver.
Qed.

Lemma mobileMenuButton_click_icon button menu i st :
  let st' := mobileMenuButton_click button menu (Some i) st in
  ("fa-times" ∈ classList (document st' i) ↔ ¬ expanded st button)
  ∧ ("fa-bars" ∈ classList (document st' i) ↔ expanded st button).
Proof.
  unfold expanded, mobileMenuButton_click.
  case_bool_decide; dom_cases; token_solver.
Qed.

Lemma mobileMenuButton_click_consistent button menu icon st :
  menu_consistent button menu icon st →
  menu_consistent button menu icon (mobileMenuButton_click button menu icon st).
Proof.
  intros [Hflag Hicon]. split.
  - rewrite mobileMenuButton_click_expanded, mobileMenuButton_click_hidden.
    destruct (decide ("hidden" ∈ classList (document st menu))); tauto.
  - intros i ->.
    destruct (mobileMenuButton_click_icon button menu i st) as [-> ->].
    rewrite mobileMenuButton_click_hidden.
    destruct (decide ("hidden" ∈ classList (document st menu))); tauto.
Qed.

Lemma mobileMenuLink_click_consistent button menu icon st :
  menu_consistent button menu icon st →
  menu_consistent button menu icon (mobileMenuLink_click button menu icon st).
Proof.
  unfold mobileMenuLink_click, contains. case_bool_decide; [done|]. simpl.
  intros _. unfold menu_consistent, expanded.
  destruct icon as [i|]; (split; [|intros ? [= <-]]);
    dom_cases; rewrite ?lookup_insert_eq; token_solver.
Qed.

Lemma close_mobile_menu_consistent pg b m st :
  mobileMenuButton pg = Some b →
  menu_consistent b m (menuIcon pg) (close_mobile_menu pg m st).
Proof.
  intros Hb. unfold close_mobile_menu, menu_consistent, expanded. rewrite Hb.
  destruct (menuIcon pg) as [i|]; (split; [|intros ? [= <-]]);
    dom_cases; rewrite ?lookup_insert_eq; token_solver.
Qed.

Lemma anchor_click_consistent pg b m anchor st :
  mobileMenuButton pg = Some b → mobileMenu pg = Some m →
  menu_consistent b m (menuIcon pg) st →
  menu_consistent b m (menuIcon pg) (anchor_click pg anchor st).1.
Proof.
  intros Hb Hm Hst. unfold anchor_click. rewrite Hm.
  repeat (case_match; simpl; try done).
  by apply close_mobile_menu_consistent.
Qed.

(** C8: each operation on the menu (a click on the button, a click on a
    link of the mobile menu, the close performed by the smooth-scroll
    handler) keeps the flag, the panel and the icon in agreement:
    aria-expanded is "true" exactly when the panel is not hidden, exactly
    when the icon shows fa-times and not fa-bars. *)
Theorem menu_operations_keep_consistency pg b m st :
  mobileMenuButton pg = Some b →
  mobileMenu pg = Some m →
  menu_consistent b m (menuIcon pg) st →
  menu_consistent b m (menuIcon pg) (handle pg MenuButtonClick st)
  ∧ (∀ link, menu_consistent b m (menuIcon pg) (handle pg (MobileMenuLinkClick link) st))
  ∧ (∀ anchor, menu_consistent b m (menuIcon pg) (handle pg (AnchorClick anchor) st)).
Proof.
  intros Hb Hm Hst. simpl. rewrite Hb, Hm. split; [|split].
  - by apply mobileMenuButton_click_consistent.
  - intros link. case_bool_decide; [|done].
    by apply mobileMenuLink_click_consistent.
  - intros anchor. destruct (headerNav pg); [|done].
    case_bool_decide; [|done]. by apply anchor_click_consistent.
Qed.

(** Two clicks on the button always restore the flag and the visibility
    class; the icon ends on the glyph that the flag calls for. *)
Lemma two_clicks_flag_and_panel button menu icon st :
  let st2 := mobileMenuButton_click button menu icon
               (mobileMenuButton_click button menu icon st) in
  (expanded st2 button ↔ expanded st button)
  ∧ ("hidden" ∈ classList (document st2 menu) ↔ "hidden" ∈ classList (document st menu)).
Proof.
  simpl. rewrite !mobileMenuButton_click_expanded, !mobileMenuButton_click_hidden.
  unfold expanded.
  destruct (decide (getAttribute st button "aria-expanded" = Some "true")),
    (decide ("hidden" ∈ classList (document st menu))); tauto.
Qed.

Lemma two_clicks_icon button menu i st :
  let st2 := mobileMenuButton_click button menu (Some i)
               (mobileMenuButton_click button menu (Some i) st) in
  ("fa-times" ∈ classList (document st2 i) ↔ expanded st button)
  ∧ ("fa-bars" ∈ classList (document st2 i) ↔ ¬ expanded st button).
Proof.
  simpl.
  destruct (mobileMenuButton_click_icon button menu i
              (mobileMenuButton_click button menu (Some i) st)) as [-> ->].
  rewrite mobileMenuButton_click_expanded. unfold expanded.
  destruct (decide (getAttribute st button "aria-expanded" = Some "true")); tauto.
Qed.

(** C9, as amended: from a state whose icon agrees with the flag, two clicks
    on the button bring the flag, the visibility class and the icon glyph
    back to what they were. *)
Theorem two_clicks_restore button menu icon st :
  icon_follows_flag button icon st →
  same_menu button menu icon st
    (mobileMenuButton_click button menu icon
       (mobileMenuButton_click button menu icon st)).
Proof.
  intros Hicon.
  destruct (two_clicks_flag_and_panel button menu icon st) as [Hflag Hpanel].
  split; [done|]. split; [done|].
  intros i ->. destruct (Hicon i eq_refl) as [Ht Hb].
  destruct (two_clicks_icon button menu i st) as [-> ->]. tauto.
Qed.

(** The hypothesis is the weakest one: the glyph comes back only if the
    icon agreed with the flag. *)
Lemma two_clicks_restore_only_if button menu icon st :
  same_menu button menu icon st
    (mobileMenuButton_click button menu icon
       (mobileMenuButton_click button menu icon st)) →
  icon_follows_flag button icon st.
Proof.
  intros (_ & _ & Hicon) i ->. destruct (Hicon i eq_refl) as [Hb Ht].
  destruct (two_clicks_icon button menu i st) as [Ht2 Hb2].
  rewrite <- Ht, <- Hb. tauto.
Qed.

(** * The contact form *)

(** ** What the handlers leave alone *)

Lemma data_of_alter_classList n f (d : node → Element) x :
  data_of (alter (with_classList f) n d x) = data_of (d x).
Proof. rewrite alter_apply. by case_decide. Qed.

Lemma data_of_alter_textContent n t (d : node → Element) x :
  data_of (alter (with_textContent t) n d x) = data_of (d x).
Proof. rewrite alter_apply. by case_decide. Qed.

Ltac data_solver :=
  dom_unfold;
  repeat (rewrite data_of_alter_classList || rewrite data_of_alter_textContent);
  done.

Lemma check_field_data e : check_field (data_of e) = check_field e.
Proof. done. Qed.

Lemma check_field_same e e' : data_of e = data_of e' → check_field e = check_field e'.
Proof. intros H. by rewrite <- (check_field_data e), H. Qed.

Lemma validateField_data pg field st x :
  data_of (document (validateField pg field st).1 x) = data_of (document st x).
Proof.
  unfold validateField.
  destruct (errorElement_for pg st field) as [e|];
    destruct (check_field _) as [[] msg]; simpl; data_solver.
Qed.

(** The verdict of [validateField] is the verdict of [check_field] on the
    field as it was. *)
Lemma validateField_verdict pg field st :
  (validateField pg field st).2 = field_valid (document st field).
Proof.
  unfold validateField, field_valid.
  assert (Hsame : ∀ st', data_of (document st' field) = data_of (document st field) →
                         check_field (document st' field) = check_field (document st field))
    by (intros; by apply check_field_same).
  destruct (errorElement_for pg st field) as [e|];
    (rewrite Hsame by data_solver);
    by destruct (check_field (document st field)) as [[] msg].
Qed.

Lemma validate_each_data pg fields st ok x :
  data_of (document (validate_each pg fields st ok).1 x) = data_of (document st x).
Proof.
  revert st ok. induction fields as [|f fields IH]; intros st ok; simpl; [done|].
  pose proof (validateField_data pg f st x) as Hf.
  destruct (validateField pg f st) as [st' b]; simpl in *.
  by rewrite IH.
Qed.

Lemma validate_each_verdict pg fields st ok :
  (validate_each pg fields st ok).2 = true
  ↔ ok = true ∧ ∀ f, f ∈ fields → field_valid (document st f) = true.
Proof.
  revert st ok. induction fields as [|f fields IH]; intros st ok; simpl.
  - split; [intros ->; split; [done|]; by intros ? ?%elem_of_nil | by intros [-> _]].
  - pose proof (validateField_verdict pg f st) as Hv.
    pose proof (validateField_data pg f st) as Hd.
    destruct (validateField pg f st) as [st' b]; simpl in *.
    rewrite IH.
    assert (Hrest : (∀ g, g ∈ fields → field_valid (document st' g) = true)
                    ↔ (∀ g, g ∈ fields → field_valid (document st g) = true)).
    { unfold field_valid.
      split; intros H g Hg; [rewrite <- (check_field_same _ _ (Hd g))
                            | rewrite (check_field_same _ _ (Hd g))]; auto. }
    rewrite Hrest. subst b. split.
    + intros [Hok Hall]. destruct (field_valid (document st f)) eqn:Hf; [|done].
      split; [done|]. intros g [->|Hg]%elem_of_cons; auto.
    + intros [-> Hall]. rewrite (Hall f) by set_solver.
      split; [done|]. intros g Hg. apply Hall. set_solver.
Qed.

Lemma all_valid_iff pg st :
  all_valid pg st ↔ ∀ f, f ∈ fieldsToValidate pg st → field_valid (document st f) = true.
Proof.
  unfold all_valid. split; intros H f Hf.
  - rewrite <- (validateField_verdict pg). by apply H.
  - rewrite validateField_verdict. by apply H.
Qed.

(** ** validateField *)

Lemma field_valid_required_blank e :
  is_Some (attributes e !! "required") → trim (value e) = [] → field_valid e = false.
Proof.
  intros Hreq Hv. unfold field_valid, check_field.
  by rewrite (bool_decide_eq_true_2 _ Hreq), Hv.
Qed.

Lemma field_valid_not_blank e :
  trim (value e) ≠ [] →
  field_valid e = true ↔ (type e = "email" → email_shape (trim (value e))).
Proof.
  intros Hv. unfold field_valid, check_field.
  rewrite <- email_pattern_shape.
  destruct (trim (value e)) as [|c v] eqn:Htrim; [done|]. cbn [is_empty negb].
  rewrite andb_false_r, andb_true_r.
  case_bool_decide; cbn [andb]; [|by split].
  destruct (test email_pattern (c :: v)); cbn [negb fst]; split; auto; done.
Qed.

(** C6: a required field is rejected when nothing is left of its value after
    trimming, that is, when the value is empty or white space only; any
    other value is accepted, unless the field is an e-mail field, which is
    then accepted exactly when the trimmed value has the e-mail shape. *)
Theorem required_field_validation pg st f :
  is_Some (getAttribute st f "required") →
  let e := document st f in
  (trim (value e) = [] ↔ blank (value e))
  ∧ (trim (value e) = [] → (validateField pg f st).2 = false)
  ∧ (trim (value e) ≠ [] → type e ≠ "email" → (validateField pg f st).2 = true)
  ∧ (trim (value e) ≠ [] → type e = "email" →
     ((validateField pg f st).2 = true ↔ email_shape (trim (value e)))).
Proof.
  intros Hreq e. rewrite validateField_verdict. fold e.
  split; [apply trim_nil_iff|]. split; [|split].
  - by apply field_valid_required_blank.
  - intros Hv Hty. by apply field_valid_not_blank.
  - intros Hv Hty. rewrite (field_valid_not_blank e Hv). tauto.
Qed.

Lemma field_valid_email_value e v :
  type e = "email" → value e = v → trim v ≠ [] →
  field_valid e = test email_pattern (trim v).
Proof.
  intros Hty <- Hv. unfold field_valid, check_field.
  destruct (trim (value e)) as [|c w]; [done|]. cbn [is_empty negb].
  rewrite andb_false_r, andb_true_r, (bool_decide_eq_true_2 _ Hty). cbn [andb].
  by destruct (test email_pattern (c :: w)).
Qed.

(** C2: for an e-mail field whose trimmed value is not empty, validateField
    accepts exactly the values of the shape local@domain.tld -- one or more
    characters other than white space and '@', an '@', one or more such
    characters, a '.', one or more such characters.  Such a value has no
    white space, exactly one '@' and a '.' in the part after it.  "a@b.com"
    is accepted; "a@b" and "a b@c.com" are rejected. *)
Theorem email_field_validation pg st f :
  type (document st f) = "email" →
  let v := trim (value (document st f)) in
  (v ≠ [] → ((validateField pg f st).2 = true ↔ email_shape v))
  ∧ (email_shape v →
     Forall (λ c, is_space c = false) v
     ∧ length (filter (λ c, c = at_sign) v) = 1%nat
     ∧ ∃ l d, v = l ++ [at_sign] ++ d ∧ full_stop ∈ d)
  ∧ (value (document st f) = js "a@b.com" → (validateField pg f st).2 = true)
  ∧ (value (document st f) = js "a@b" → (validateField pg f st).2 = false)
  ∧ (value (document st f) = js "a b@c.com" → (validateField pg f st).2 = false).
Proof.
  intros Hty v. rewrite validateField_verdict.
  split; [|split; [apply email_shape_entails|]].
  - intros Hv. rewrite (field_valid_not_blank _ Hv). tauto.
  - repeat split; intros Hval;
      by rewrite (field_valid_email_value _ _ Hty Hval).
Qed.

(** ** The form data set *)

Lemma fromEntries_keys entries k : k ∈ dom (fromEntries entries) ↔ k ∈ entries.*1.
Proof.
  unfold fromEntries.
  assert (Hgen : ∀ (obj : gmap string EntryValue),
            k ∈ dom (fold_left (λ obj p, <[p.1 := p.2]> obj) entries obj)
            ↔ k ∈ dom obj ∨ k ∈ entries.*1).
  { induction entries as [|[name v] entries IH]; intros obj; simpl.
    - set_solver.
    - rewrite IH, dom_insert. set_solver. }
  rewrite Hgen. set_solver.
Qed.

Lemma entries_of_control_names e k :
  k ∈ (entries_of_control e).*1 ↔ successful e = true ∧ control_name e = k.
Proof.
  unfold entries_of_control, successful.
  destruct (disabled e || is_button e || (is_checkable e && negb (checked e))
            || bool_decide (control_name e = "")); simpl.
  - split; [by intros ?%elem_of_nil | by intros [? _]].
  - case_bool_decide; simpl.
    + rewrite <- list_fmap_compose.
      destruct (selectedOptions e) as [|v vs]; simpl.
      * split; [by intros ?%elem_of_nil | by intros [? _]].
      * rewrite elem_of_cons, list_elem_of_fmap. naive_solver.
    + repeat case_match; simpl; rewrite list_elem_of_singleton; naive_solver.
Qed.

Lemma FormData_names pg st k :
  k ∈ (FormData pg st).*1
  ↔ ∃ n, n ∈ formControls pg ∧ successful (document st n) = true
         ∧ control_name (document st n) = k.
Proof.
  unfold FormData. rewrite list_elem_of_fmap. split.
  - intros ([k' v] & -> & (n & Hin & Hn)%list_elem_of_bind).
    exists n. split; [done|]. apply entries_of_control_names.
    apply list_elem_of_fmap. by exists (k', v).
  - intros (n & Hn & Hs & Hk).
    assert (k ∈ (entries_of_control (document st n)).*1) as ([k' v] & -> & Hin)%list_elem_of_fmap
      by by apply entries_of_control_names.
    exists (k', v). split; [done|]. apply list_elem_of_bind. by exists n.
Qed.

(** ** The submit handler *)

Lemma show_message_text pg msg text classes role st :
  textContent (document (show_message pg msg text classes role st) msg) = text.
Proof.
  unfold show_message, set_role.
  destruct (formMessageContainer pg); by dom_cases.
Qed.

Lemma show_message_role pg msg text classes role st :
  role_of pg (show_message pg msg text classes role st) role.
Proof.
  intros c Hc. unfold show_message, set_role. rewrite Hc.
  dom_cases; by rewrite lookup_insert_eq.
Qed.

Lemma contactForm_submit_invalid pg msg st :
  ¬ all_valid pg st →
  let r := contactForm_submit pg msg st in
  fetched r = [] ∧ pending r = None
  ∧ textContent (document (after r) msg) = correct_errors_message
  ∧ role_of pg (after r) "alert".
Proof.
  intros Hinv. unfold contactForm_submit.
  pose proof (validate_each_verdict pg (fieldsToValidate pg st) st true) as Hv.
  destruct (validate_each pg (fieldsToValidate pg st) st true) as [st' ok]; simpl in *.
  destruct ok; simpl.
  - destruct Hinv. apply all_valid_iff. by destruct (proj1 Hv eq_refl).
  - split; [done|]. split; [done|].
    split; [apply show_message_text | apply show_message_role].
Qed.

Lemma contactForm_submit_valid pg msg b st :
  submitButton pg = Some b →
  all_valid pg st →
  let r := contactForm_submit pg msg st in
  ∃ req, fetched r = [req]
    ∧ url req = "http://127.0.0.1:5001/api/contact" ∧ method req = "POST"
    ∧ headers req = [("Content-Type", "application/json")]
    ∧ body req = fromEntries (FormData pg (after r))
    ∧ ∃ k, pending r = Some k.
Proof.
  intros Hb Hval. unfold contactForm_submit.
  pose proof (validate_each_verdict pg (fieldsToValidate pg st) st true) as Hv.
  destruct (validate_each pg (fieldsToValidate pg st) st true) as [st' ok]; simpl in *.
  destruct ok; simpl.
  - rewrite Hb. simpl. eexists. repeat split; eauto.
  - rewrite all_valid_iff in Hval. by assert (false = true) by (apply Hv; by split).
Qed.

(** What a suspended submission remembers: the fields it validated. *)
Lemma contactForm_submit_pending pg msg st k :
  pending (contactForm_submit pg msg st) = Some k →
  validatedFields k = fieldsToValidate pg st.
Proof.
  unfold contactForm_submit.
  destruct (validate_each pg (fieldsToValidate pg st) st true) as [st' []]; simpl; [|done].
  destruct (submitButton pg); simpl; [|done]. by intros [= <-].
Qed.

Lemma all_valid_decidable pg st : all_valid pg st ∨ ¬ all_valid pg st.
Proof.
  pose proof (validate_each_verdict pg (fieldsToValidate pg st) st true) as Hv.
  rewrite all_valid_iff.
  destruct (validate_each pg (fieldsToValidate pg st) st true).2.
  - left. by destruct (proj1 Hv eq_refl).
  - right. intros H. by assert (false = true) by (apply Hv; by split).
Qed.

(** The selector of the handler picks the required inputs and textareas and
    the e-mail inputs. *)
Lemma needs_validation_iff e : needs_validation e = true ↔ required_or_email e.
Proof.
  unfold needs_validation, required_or_email.
  rewrite !orb_true_iff, !andb_true_iff, !bool_decide_eq_true. tauto.
Qed.

Lemma fieldsToValidate_iff pg st f :
  f ∈ fieldsToValidate pg st ↔ f ∈ formDescendants pg ∧ required_or_email (document st f).
Proof.
  unfold fieldsToValidate. rewrite list_elem_of_filter, needs_validation_iff. tauto.
Qed.

(** The verdict on a field is what validation is documented to ask of it. *)
Lemma field_valid_acceptable e : field_valid e = true ↔ acceptable e.
Proof.
  unfold acceptable.
  destruct (decide (trim (value e) = [])) as [Hblank|Hfull].
  - assert (blank (value e)) as Hb by by apply trim_nil_iff.
    destruct (decide (is_Some (attributes e !! "required"))) as [Hreq|Hopt].
    + rewrite (field_valid_required_blank e Hreq Hblank). split; [done|].
      intros [Hne _]. by destruct (Hne Hreq).
    + unfold field_valid, check_field.
      rewrite (bool_decide_eq_false_2 _ Hopt), Hblank. cbn [is_empty negb andb].
      rewrite andb_false_r. cbn [andb fst]. split; [|done]. intros _. split; [done|].
      intros _ Hne. by destruct Hne.
  - assert (¬ blank (value e)) as Hb by by rewrite <- trim_nil_iff.
    rewrite (field_valid_not_blank e Hfull). split.
    + intros Hshape. split; [done|]. auto.
    + intros [_ Hshape] Hty. auto.
Qed.

Lemma all_valid_acceptable pg st : all_valid pg st ↔ fields_acceptable pg st.
Proof.
  rewrite all_valid_iff. unfold fields_acceptable. split.
  - intros Hall f Hf Hsel. apply field_valid_acceptable, Hall.
    by apply fieldsToValidate_iff.
  - intros Hall f [Hf Hsel]%fieldsToValidate_iff. by apply field_valid_acceptable, Hall.
Qed.

(** C1, as amended: on submit a request is made if and only if every field
    that the form validates -- every input or textarea with the required
    attribute and every input of type email -- passes validation: a
    required field is not blank, an e-mail field that is not blank holds an
    address.  If one fails, the "correct the errors" message is shown, the
    container is tagged as an alert and nothing is fetched.  If all pass,
    exactly one POST goes to the fixed endpoint, and the keys of its JSON
    body are the names of the successful controls of the form: those that
    are enabled, named, not buttons, for a check box or a radio button
    checked, and for a select with an enabled option selected. *)
Theorem submit_posts_iff_valid pg msg b st :
  submitButton pg = Some b →
  let r := contactForm_submit pg msg st in
  (fields_acceptable pg st
   ↔ ∀ f, f ∈ formDescendants pg → required_or_email (document st f) →
          (validateField pg f st).2 = true)
  ∧ (fetched r ≠ [] ↔ fields_acceptable pg st)
  ∧ (¬ fields_acceptable pg st →
     fetched r = []
     ∧ textContent (document (after r) msg)
       = "Por favor, corrija los errores en el formulario."
     ∧ role_of pg (after r) "alert")
  ∧ (fields_acceptable pg st →
     ∃ req, fetched r = [req]
       ∧ url req = "http://127.0.0.1:5001/api/contact" ∧ method req = "POST"
       ∧ headers req = [("Content-Type", "application/json")]
       ∧ ∀ k, k ∈ dom (body req)
              ↔ ∃ n, n ∈ formControls pg
                     ∧ successful (document (after r) n) = true
                     ∧ control_name (document (after r) n) = k).
Proof.
  intros Hb r. split; [|split; [|split]].
  - rewrite <- all_valid_acceptable. unfold all_valid. split.
    + intros Hall f Hf Hsel. by apply Hall, fieldsToValidate_iff.
    + intros Hall f [Hf Hsel]%fieldsToValidate_iff. by apply Hall.
  - rewrite <- all_valid_acceptable.
    destruct (all_valid_decidable pg st) as [Hval|Hinv].
    + destruct (contactForm_submit_valid pg msg b st Hb Hval) as (req & Hreq & _).
      fold r in Hreq. rewrite Hreq. by split.
    + destruct (contactForm_submit_invalid pg msg st Hinv) as (Hnone & _).
      fold r in Hnone. rewrite Hnone. by split.
  - rewrite <- all_valid_acceptable. intros Hinv.
    destruct (contactForm_submit_invalid pg msg st Hinv) as (? & _ & ? & ?). by repeat split.
  - rewrite <- all_valid_acceptable. intros Hval.
    destruct (contactForm_submit_valid pg msg b st Hb Hval)
      as (req & Hreq & Hurl & Hmethod & Hheaders & Hbody & _).
    exists req. repeat split; try done.
    + rewrite Hbody, fromEntries_keys. apply FormData_names.
    + rewrite Hbody, fromEntries_keys. apply FormData_names.
Qed.

Lemma newsletter_form_valid : all_valid newsletter_page (newsletter_form "Ana" false).
Proof.
  intros f Hf.
  assert (fieldsToValidate newsletter_page (newsletter_form "Ana" false) = [1%nat]) as Heq
    by by vm_compute.
  rewrite Heq in Hf. apply list_elem_of_singleton in Hf as ->. by vm_compute.
Qed.

(** In that form only the name is a successful control once the handler
    has disabled the button. *)
Lemma newsletter_form_successful k :
  (∃ n, n ∈ formControls newsletter_page
        ∧ successful (document (after (contactForm_submit newsletter_page 4%nat
                                          (newsletter_form "Ana" false))) n) = true
        ∧ control_name (document (after (contactForm_submit newsletter_page 4%nat
                                            (newsletter_form "Ana" false))) n) = k)
  ↔ k = "nombre".
Proof.
  split.
  - intros (n & Hn & Hs & Hk).
    repeat (apply elem_of_cons in Hn as [->|Hn]); [..|by apply elem_of_nil in Hn];
      vm_compute in Hs; vm_compute in Hk; congruence.
  - intros ->. exists 1%nat. split; [set_solver|]. split; by vm_compute.
Qed.

Lemma submit_posts_iff_valid_witness :
  ∃ req, fetched (contactForm_submit newsletter_page 4%nat (newsletter_form "Ana" false)) = [req]
    ∧ (∀ k, k ∈ dom (body req) ↔ k = "nombre").
Proof.
  destruct (submit_posts_iff_valid newsletter_page 4%nat 3%nat (newsletter_form "Ana" false)
              eq_refl) as (_ & _ & _ & Hsend).
  destruct (Hsend (proj1 (all_valid_acceptable _ _) newsletter_form_valid))
    as (req & Hreq & _ & _ & _ & Hkeys).
  exists req. split; [done|]. intros k.
  rewrite Hkeys. apply newsletter_form_successful.
Defined.

(** An unchecked check box is a field of the form, and its name is not a
    key of the body. *)
Lemma keys_are_not_field_names :
  ¬ keys_are_field_names newsletter_page 4%nat (newsletter_form "Ana" false).
Proof.
  intros Hkeys.
  destruct (contactForm_submit_valid newsletter_page 4%nat 3%nat
              (newsletter_form "Ana" false) eq_refl newsletter_form_valid)
    as (req & Hreq & _ & _ & _ & Hbody & _).
  assert ("boletin" ∈ dom (body req)) as Hin.
  { apply (Hkeys req); [rewrite Hreq; set_solver|].
    assert (field_names newsletter_page (newsletter_form "Ana" false)
            = ["nombre"; "boletin"]) as -> by by vm_compute.
    set_solver. }
  rewrite Hbody, fromEntries_keys, FormData_names in Hin.
  by apply newsletter_form_successful in Hin.
Qed.

(** A required select is not among the fields that the handler validates:
    left empty, it does not pass [validateField], and the request is made. *)
Lemma required_select_is_not_validated :
  ¬ posts_iff_required_valid quote_page 3%nat quote_form.
Proof.
  intros Hiff.
  assert (all_valid quote_page quote_form) as Hval.
  { intros f Hf.
    assert (fieldsToValidate quote_page quote_form = []) as Heq by by vm_compute.
    rewrite Heq in Hf. by apply elem_of_nil in Hf. }
  destruct (contactForm_submit_valid quote_page 3%nat 2%nat quote_form eq_refl Hval)
    as (req & Hreq & _).
  assert (required_fields_valid quote_page quote_form) as Hall.
  { apply Hiff. by rewrite Hreq. }
  assert ((validateField quote_page 1%nat quote_form).2 = true) as Hselect.
  { apply Hall; [set_solver|]. left. by eexists. }
  by vm_compute in Hselect.
Qed.

(** C1, as stated, fails on both counts: the keys of the body are not the
    names of the fields of the form, and a request is made although a
    required field, a select, does not pass validation. *)
Lemma submit_claim_fails :
  ¬ keys_are_field_names newsletter_page 4%nat (newsletter_form "Ana" false)
  ∧ ¬ posts_iff_required_valid quote_page 3%nat quote_form.
Proof. split; [apply keys_are_not_field_names | apply required_select_is_not_validated]. Qed.

(** ** The handler after the fetch has settled *)

Lemma restore_button_text pg k st x :
  submitButton pg ≠ Some x →
  textContent (document (restore_button pg k st) x) = textContent (document st x).
Proof. unfold restore_button. destruct (submitButton pg); intros; by dom_cases. Qed.

Lemma restore_button_button pg k st b :
  submitButton pg = Some b →
  disabled (document (restore_button pg k st) b) = false
  ∧ textContent (document (restore_button pg k st) b) = originalButtonText k.
Proof. unfold restore_button. intros ->. by dom_cases. Qed.

Lemma but_button_state_fields e e' :
  but_button_state e = but_button_state e' →
  classList e = classList e' ∧ attributes e = attributes e'
  ∧ control_data e = control_data e'.
Proof.
  intros H. unfold control_data.
  pose proof (f_equal classList H). pose proof (f_equal attributes H).
  pose proof (f_equal tagName H). pose proof (f_equal type H).
  pose proof (f_equal value H). pose proof (f_equal resetValue H).
  pose proof (f_equal checked H). pose proof (f_equal resetChecked H).
  pose proof (f_equal selectedOptions H). pose proof (f_equal resetSelected H).
  simpl in *. repeat split; congruence.
Qed.

Lemma but_classes_fields e e' :
  but_classes e = but_classes e' →
  textContent e = textContent e' ∧ attributes e = attributes e'
  ∧ control_data e = control_data e'.
Proof.
  intros H. unfold control_data.
  pose proof (f_equal textContent H). pose proof (f_equal attributes H).
  pose proof (f_equal tagName H). pose proof (f_equal type H).
  pose proof (f_equal value H). pose proof (f_equal resetValue H).
  pose proof (f_equal checked H). pose proof (f_equal resetChecked H).
  pose proof (f_equal selectedOptions H). pose proof (f_equal resetSelected H).
  simpl in *. repeat split; congruence.
Qed.


Lemma same_entries_data before after after' :
  control_data after = control_data after' →
  same_entries before after → same_entries before after'.
Proof.
  unfold control_data, same_entries, same_reset_data. intros [=].
  repeat match goal with H : _ = _ |- _ => rewrite <- H end. done.
Qed.

Lemma restore_button_frame pg k st x :
  but_button_state (document (restore_button pg k st) x) = but_button_state (document st x).
Proof. unfold restore_button. destruct (submitButton pg); by dom_cases. Qed.

Lemma show_message_frame pg msg text classes role st x :
  control_data (document (show_message pg msg text classes role st) x)
  = control_data (document st x).
Proof. unfold show_message, set_role. destruct (formMessageContainer pg); by dom_cases. Qed.

(** The banner, the role and the button once the handler has finished with
    the message [text]. *)
Lemma banner_shown pg msg k text classes role st :
  submitButton pg ≠ Some msg →
  let st' := restore_button pg k (show_message pg msg text classes role st) in
  textContent (document st' msg) = text ∧ role_of pg st' role.
Proof.
  intros Hb st'. unfold st'. split.
  - rewrite restore_button_text by done. apply show_message_text.
  - intros c Hc. unfold getAttribute.
    destruct (but_button_state_fields _ _
                (restore_button_frame pg k (show_message pg msg text classes role st) c))
      as (_ & -> & _).
    by apply show_message_role.
Qed.

(** A failure of transport shows the connection banner as an alert, and the
    button is enabled again under its original label. *)
Lemma network_error_banner pg msg b k st :
  submitButton pg = Some b → b ≠ msg →
  let st' := contactForm_settled pg msg k NetworkError st in
  textContent (document st' msg) = connection_error_message
  ∧ role_of pg st' "alert"
  ∧ disabled (document st' b) = false
  ∧ textContent (document st' b) = originalButtonText k.
Proof.
  intros Hb Hne. simpl. unfold on_error.
  destruct (banner_shown pg msg k connection_error_message error_classes "alert" st)
    as [Htext Hrole]; [congruence|].
  destruct (restore_button_button pg k
              (show_message pg msg connection_error_message error_classes "alert" st) b Hb).
  done.
Qed.

(** A response whose body cannot be read as JSON, or is the JSON value
    null, takes the handler through its catch block, whatever the status. *)
Lemma unreadable_response_is_caught pg msg k ok parsed st :
  parsed = None ∨ parsed = Some JNull →
  contactForm_settled pg msg k (Response ok parsed) st
  = contactForm_settled pg msg k NetworkError st.
Proof. by intros [-> | ->]. Qed.



(** What the try block has done when it did not throw. *)
Lemma on_response_Some pg msg k ok parsed st st' :
  on_response pg msg k ok parsed st = Some st' →
  ∃ text,
    st' = if ok
          then clear_errors pg (validatedFields k)
                 (reset_form pg (show_message pg msg text success_classes "status" st))
          else show_message pg msg text error_classes "alert" st.
Proof.
  unfold on_response. destruct parsed as [result|]; simpl; [|done].
  destruct (message_of result) as [message|]; simpl; [|done].
  destruct ok.
  - destruct (or_default message default_success_message) as [text|]; simpl; [|done].
    intros [= <-]. by exists text.
  - destruct (or_default message default_failure_message) as [text|]; simpl; [|done].
    intros [= <-]. by exists text.
Qed.

Lemma reset_control_was_reset e : was_reset e (reset_control e).
Proof.
  unfold was_reset, holds_entered_value, same_reset_data, reset_control, value_is_attribute.
  repeat case_bool_decide; simpl;
    rewrite ?elem_of_cons, ?elem_of_nil in *;
    (repeat split; try done); intros; destruct_or?; destruct_and?; try congruence; try tauto.
Qed.

Lemma reset_control_twice e : reset_control (reset_control e) = reset_control e.
Proof.
  unfold reset_control, value_is_attribute.
  repeat (case_bool_decide; simpl; try done).
Qed.

Lemma reset_control_frame e :
  classList (reset_control e) = classList e
  ∧ attributes (reset_control e) = attributes e
  ∧ textContent (reset_control e) = textContent e.
Proof. unfold reset_control. by repeat case_bool_decide. Qed.

(** [reset()] resets each control of the form and nothing else. *)
Lemma reset_form_document pg st x :
  document (reset_form pg st) x
  = if decide (x ∈ formControls pg) then reset_control (document st x) else document st x.
Proof.
  unfold reset_form. generalize (formControls pg) as l. intros l. revert st.
  induction l as [|n l IH]; intros st; simpl; [done|].
  rewrite IH. unfold update. simpl. rewrite alter_apply.
  destruct (decide (n = x)) as [Heq|Hne].
  - rewrite (decide_True (P := x ∈ n :: l)) by (rewrite Heq; set_solver).
    case_decide; [apply reset_control_twice|done].
  - case_decide as Hl.
    + by rewrite (decide_True (P := x ∈ n :: l)) by set_solver.
    + by rewrite (decide_False (P := x ∈ n :: l)) by set_solver.
Qed.

Lemma reset_form_spec pg st x :
  let st' := reset_form pg st in
  (if decide (x ∈ formControls pg)
   then was_reset (document st x) (document st' x)
   else same_entries (document st x) (document st' x))
  ∧ classList (document st' x) = classList (document st x)
  ∧ attributes (document st' x) = attributes (document st x)
  ∧ textContent (document st' x) = textContent (document st x).
Proof.
  cbv zeta. rewrite reset_form_document. case_decide.
  - split; [apply reset_control_was_reset|apply reset_control_frame].
  - done.
Qed.

Lemma errorElement_for_attributes pg st st' field :
  (∀ x, attributes (document st' x) = attributes (document st x)) →
  errorElement_for pg st' field = errorElement_for pg st field.
Proof.
  intros Hattr. unfold errorElement_for, element_id, getAttribute.
  f_equal. apply list_filter_iff. intros n. by rewrite !Hattr.
Qed.


Lemma but_classes_attributes e e' : but_classes e = but_classes e' → attributes e = attributes e'.
Proof. by intros (_ & ? & _)%but_classes_fields. Qed.



(** C3 (the code departs from the claim): a response that did complete,
    with a success status or not, but whose body is not JSON takes the
    handler through its catch block, so the connection-error banner is
    shown as an alert although transport did not fail. *)
Theorem unreadable_response_shows_connection_error pg msg k ok st :
  submitButton pg ≠ Some msg →
  let st' := contactForm_settled pg msg k (Response ok None) st in
  textContent (document st' msg) = connection_error_message
  ∧ role_of pg st' "alert".
Proof.
  intros Hb. simpl. unfold on_error. by apply banner_shown.
Qed.

Lemma unreadable_response_shows_connection_error_witness :
  textContent
    (document (contactForm_settled newsletter_page 4%nat newsletter_pending
                 (Response false None) (newsletter_form "Ana" false)) 4%nat)
  = connection_error_message.
Proof.
  apply (unreadable_response_shows_connection_error newsletter_page 4%nat newsletter_pending
           false (newsletter_form "Ana" false)).
  discriminate.
Defined.

Lemma or_default_string s fallback :
  s ≠ "" → or_default (Some (JString s)) fallback = Some s.
Proof. intros Hs. simpl. by rewrite bool_decide_eq_false_2. Qed.

(** A message that is absent or falsy: null, false, zero, the empty string. *)
Lemma or_default_falsy message fallback :
  message = None ∨ message = Some JNull ∨ message = Some (JBool false)
  ∨ message = Some (JString "") ∨ (∃ shown, message = Some (JNumber false shown)) →
  or_default message fallback = Some fallback.
Proof. intros [->|[->|[->|[->|[shown ->]]]]]; done. Qed.

Lemma filter_message_absent (members : list (string * Json)) :
  "message" ∉ members.*1 → filter (λ p, p.1 = "message") members = [].
Proof.
  induction members as [|[name v] members IH]; simpl; [done|].
  intros [Hne Hrest]%not_elem_of_cons.
  rewrite filter_cons, decide_False by (simpl; congruence). auto.
Qed.

(** [result.message] of a body other than null is the message that the
    body supplies. *)
Lemma message_of_supplied result :
  result ≠ JNull → ∃ message, message_of result = Some message ∧ supplied_message result message.
Proof.
  intros Hnull. unfold supplied_message.
  destruct result as [|b|nz shown|s|items|members]; [done|..];
    try (exists None; split; [done|]; split; [done|]; split; [done|done]).
  exists (snd <$> list.last (filter (λ p, p.1 = "message") members)).
  split; [done|]. split; [|split].
  - intros before v after [= ->] Hafter.
    rewrite list.filter_app, filter_cons, decide_True by done.
    by rewrite (filter_message_absent _ Hafter), last_snoc.
  - intros ? [= <-] Habsent. by rewrite (filter_message_absent _ Habsent).
  - intros Hobj. by destruct (Hobj members).
Qed.

(** C5, as amended: when a response without success status arrives whose
    body is a JSON value other than null, and the message element is not the
    submit button, the banner shows the message of the body if it has one
    that is truthy and can be shown as text -- a string that is not empty as
    it is, true as "true", a number by its digits, an object without a
    member named toString as "[object Object]" -- and the default failure
    message if the message is absent, null, false, zero or the empty string;
    the container is tagged as an alert; no element of the page changes
    its value, checked state or selection. *)
Theorem failure_response_banner pg msg k result st :
  submitButton pg ≠ Some msg →
  result ≠ JNull →
  let st' := contactForm_settled pg msg k (Response false (Some result)) st in
  ∃ message,
  supplied_message result message
  ∧ (∀ text, or_default message default_failure_message = Some text →
     textContent (document st' msg) = text)
  ∧ (∀ s, message = Some (JString s) → s ≠ "" → textContent (document st' msg) = s)
  ∧ (message = Some (JBool true) → textContent (document st' msg) = "true")
  ∧ (∀ shown, message = Some (JNumber true shown) → textContent (document st' msg) = shown)
  ∧ (∀ members, message = Some (JObject members) → ("toString" ∉ members.*1) →
       textContent (document st' msg) = "[object Object]")
  ∧ (message = None ∨ message = Some JNull ∨ message = Some (JBool false)
     ∨ message = Some (JString "") ∨ (∃ shown, message = Some (JNumber false shown)) →
     textContent (document st' msg) = "Error al enviar el mensaje. Inténtelo más tarde.")
  ∧ role_of pg st' "alert"
  ∧ ∀ x, same_entries (document st x) (document st' x).
Proof.
  intros Hb Hnull.
  destruct (message_of_supplied result Hnull) as (message & Hmsg & Hsupplied).
  exists message. split; [done|].
  unfold contactForm_settled, on_response. simpl. rewrite Hmsg. simpl.
  set (shown := or_default message default_failure_message).
  set (st1 := match text ← shown; Some (show_message pg msg text error_classes "alert" st) with
              | Some st' => st'
              | None => on_error pg msg st
              end).
  assert (Hst1 : ∃ text, st1 = show_message pg msg text error_classes "alert" st
                         ∧ (∀ t, shown = Some t → text = t)).
  { unfold st1, on_error. destruct shown as [text|]; simpl.
    - exists text. split; [done|]. by intros t [= ->].
    - by eexists. }
  destruct Hst1 as (text & -> & Htext).
  destruct (banner_shown pg msg k text error_classes "alert" st Hb) as [Hshown Hrole].
  assert (Hgen : ∀ t, shown = Some t →
            textContent (document (restore_button pg k
              (show_message pg msg text error_classes "alert" st)) msg) = t).
  { intros t Ht. by rewrite Hshown, (Htext t Ht). }
  split; [done|]. split; [|split; [|split; [|split; [|split; [|split; [done|]]]]]].
  - intros s -> Hs. apply Hgen. by apply or_default_string.
  - intros ->. by apply Hgen.
  - intros n ->. by apply Hgen.
  - intros members -> Hnone. apply Hgen. unfold shown. simpl.
    by rewrite bool_decide_eq_false_2.
  - intros Hfalsy. apply Hgen. by apply or_default_falsy.
  - intros x.
    destruct (but_button_state_fields _ _ (restore_button_frame pg k
      (show_message pg msg text error_classes "alert" st) x)) as (_ & _ & Hdata).
    apply (same_entries_data _ (document (show_message pg msg text error_classes "alert" st) x));
      [done|].
    apply (same_entries_data _ (document st x)); [by rewrite show_message_frame|].
    by repeat split.
Qed.

Lemma failure_response_banner_witness :
  textContent
    (document (contactForm_settled newsletter_page 4%nat newsletter_pending
                 (Response false (Some (JObject [("message", JString "Bad input")])))
                 (newsletter_form "Ana" false)) 4%nat)
  = "Bad input".
Proof.
  destruct (failure_response_banner newsletter_page 4%nat newsletter_pending
              (JObject [("message", JString "Bad input")]) (newsletter_form "Ana" false))
    as (message & (Hlast & _) & _ & Hstring & _); [discriminate | discriminate |].
  apply Hstring; [|discriminate].
  apply (Hlast [] (JString "Bad input") []); [reflexivity | apply not_elem_of_nil].
Defined.

(** C5, as stated, fails: a message that is present but empty is not shown;
    the default takes its place. *)
Lemma failure_message_present_not_shown :
  ¬ shows_supplied_message newsletter_page 4%nat newsletter_pending false
      (newsletter_form "Ana" false).
Proof.
  intros H. specialize (H (JObject [("message", JString "")]) "" eq_refl).
  by vm_compute in H.
Qed.




(** * The active link *)

Lemma reached_iff pg st s :
  reached pg st s = true ↔ (inject_Z (sectionTop pg st s) <= pageYOffset st)%Q.
Proof. apply Qle_bool_iff. Qed.

Lemma not_reached_iff pg st s :
  reached pg st s = false ↔ (pageYOffset st < inject_Z (sectionTop pg st s))%Q.
Proof.
  rewrite <- not_true_iff_false, reached_iff. split.
  - apply Qnot_le_lt.
  - intros Hlt Hle. by apply (Qlt_not_le _ _ Hlt).
Qed.

Lemma scan_sections_last pg st :
  scan_sections pg st
  = match last_reached pg st with Some s => element_id st s | None => "" end.
Proof.
  unfold scan_sections, last_reached.
  generalize "" as current. generalize (sectionsForNavHighlight pg) as l.
  induction l as [|s l IH]; intros current; simpl; [done|].
  rewrite IH, filter_cons.
  case_decide as Hs.
  - rewrite Hs, last_cons. by destruct (list.last (filter _ l)).
  - apply not_true_is_false in Hs. by rewrite Hs.
Qed.

Lemma filter_reached_none pg st l :
  (∀ x, x ∈ l → reached pg st x = false) →
  filter (λ x, reached pg st x = true) l = [].
Proof.
  induction l as [|x l IH]; intros Hl; [done|].
  rewrite filter_cons, decide_False, IH; [done| |].
  - intros y Hy. apply Hl. by right.
  - rewrite (Hl x) by by left. done.
Qed.

Lemma last_reached_split pg st before s after :
  sectionsForNavHighlight pg = before ++ s :: after →
  reached pg st s = true →
  (∀ x, x ∈ after → reached pg st x = false) →
  last_reached pg st = Some s.
Proof.
  intros Hl Hs Hafter. unfold last_reached. rewrite Hl.
  rewrite list.filter_app, filter_cons, decide_True by done.
  rewrite (filter_reached_none _ _ _ Hafter). apply last_snoc.
Qed.

Lemma last_reached_none pg st :
  (∀ x, x ∈ sectionsForNavHighlight pg → reached pg st x = false) →
  last_reached pg st = None.
Proof. intros Hl. unfold last_reached. by rewrite (filter_reached_none _ _ _ Hl). Qed.

Lemma mark_link_spec current st link x :
  let st' := mark_link current st link in
  attributes (document st' x) = attributes (document st x)
  ∧ (x = link → (active st' x ↔ getAttribute st x "href" = Some ("#" +:+ current)))
  ∧ (x ≠ link → document st' x = document st x).
Proof.
  unfold mark_link, active. case_bool_decide as Hhref; dom_cases; token_solver.
Qed.

Lemma mark_links_spec current links st x :
  let st' := fold_left (mark_link current) links st in
  attributes (document st' x) = attributes (document st x)
  ∧ (x ∈ links → (active st' x ↔ getAttribute st x "href" = Some ("#" +:+ current)))
  ∧ (x ∉ links → document st' x = document st x).
Proof.
  revert st. induction links as [|l links IH]; intros st; simpl.
  - split; [done|]. split; [by intros ?%elem_of_nil|done].
  - destruct (IH (mark_link current st l)) as (Hattr & Hin & Hout).
    destruct (mark_link_spec current st l x) as (Hattr1 & Hin1 & Hout1).
    split; [by rewrite Hattr|]. split.
    + intros Hx. destruct (decide (x ∈ links)) as [Hl|Hl].
      * rewrite (Hin Hl). unfold getAttribute. by rewrite Hattr1.
      * apply elem_of_cons in Hx as [->|?]; [|done].
        unfold active. rewrite (Hout Hl). by apply Hin1.
    + intros [Hne Hl]%not_elem_of_cons. by rewrite (Hout Hl), Hout1.
Qed.

(** The links are marked by their href against the current section id;
    every other element is left as it was. *)
Lemma updateActiveState_spec pg st x :
  let st' := updateActiveState pg st in
  (x ∈ nav_links pg →
   (active st' x ↔ getAttribute st x "href" = Some ("#" +:+ currentSectionId pg st)))
  ∧ (x ∉ nav_links pg → document st' x = document st x).
Proof. apply mark_links_spec. Qed.

(** C7, as amended: a run of updateActiveState marks as active exactly the
    desktop and mobile links whose href is '#' followed by the id of the
    last section, in document order, whose adjusted top (offsetTop less the
    navbar height less 60) the scroll position has reached, when that id is
    not empty, and leaves every other such link without the class; when no
    section is reached, the first section is 'inicio' and the scroll
    position is above its top, the links to '#inicio' are the ones marked. *)
Theorem updateActiveState_marks_current pg st :
  let st' := updateActiveState pg st in
  (∀ before s after,
     sectionsForNavHighlight pg = before ++ s :: after →
     element_id st s ≠ "" →
     (inject_Z (offsetTop (document st s) - navbarHeight pg - 60) <= pageYOffset st)%Q →
     (∀ x, x ∈ after →
        (pageYOffset st < inject_Z (offsetTop (document st x) - navbarHeight pg - 60))%Q) →
     ∀ link, link ∈ desktopMenuLinks pg ++ mobileMenuLinks pg →
       (active st' link ↔ getAttribute st link "href" = Some ("#" +:+ element_id st s)))
  ∧ (∀ first rest,
       sectionsForNavHighlight pg = first :: rest →
       (∀ x, x ∈ first :: rest →
          (pageYOffset st < inject_Z (offsetTop (document st x) - navbarHeight pg - 60))%Q) →
       element_id st first = "inicio" →
       (pageYOffset st < inject_Z (offsetTop (document st first)))%Q →
       ∀ link, link ∈ desktopMenuLinks pg ++ mobileMenuLinks pg →
         (active st' link ↔ getAttribute st link "href" = Some "#inicio")).
Proof.
  cbv zeta. split.
  - intros before s after Hl Hid Hs Hafter link Hlink.
    destruct (updateActiveState_spec pg st link) as (Hmark & _). rewrite (Hmark Hlink).
    assert (last_reached pg st = Some s) as Hlast.
    { eapply last_reached_split; [done|by apply reached_iff|].
      intros x Hx. by apply not_reached_iff, Hafter. }
    unfold currentSectionId. rewrite scan_sections_last, Hlast.
    by rewrite bool_decide_eq_false_2.
  - intros first rest Hl Hnone Hid Htop link Hlink.
    destruct (updateActiveState_spec pg st link) as (Hmark & _). rewrite (Hmark Hlink).
    assert (last_reached pg st = None) as Hlast.
    { apply last_reached_none. rewrite Hl. intros x Hx. by apply not_reached_iff, Hnone. }
    unfold currentSectionId. rewrite scan_sections_last, Hlast, Hl.
    rewrite !bool_decide_eq_true_2 by done.
    assert (Qle_bool (inject_Z (offsetTop (document st first))) (pageYOffset st) = false) as ->.
    { apply not_true_iff_false. rewrite Qle_bool_iff. intros Hle.
      by apply (Qlt_not_le _ _ Htop). }
    done.
Qed.

(** When no section is current -- none is reached and the 'inicio' rule does
    not apply -- the links marked are those whose href is just '#'. *)
Lemma updateActiveState_no_section pg st link :
  currentSectionId pg st = "" →
  link ∈ nav_links pg →
  active (updateActiveState pg st) link ↔ getAttribute st link "href" = Some "#".
Proof.
  intros Hcur Hlink.
  destruct (updateActiveState_spec pg st link) as (Hmark & _).
  by rewrite (Hmark Hlink), Hcur.
Qed.

(** * The fade-in observer *)

(** ** What keeps the class of a visible section *)

Lemma visible_update n f st x :
  ("is-visible" ∈ classList (document st x) → "is-visible" ∈ classList (f (document st x))) →
  visible st x → visible (update n f st) x.
Proof. unfold visible. intros Hf Hx. dom_cases; auto. Qed.

Lemma visible_classList_add n t st x : visible st x → visible (classList_add n t st) x.
Proof. apply visible_update. simpl. token_solver. Qed.

Lemma visible_classList_remove n t st x :
  t ≠ "is-visible" → visible st x → visible (classList_remove n t st) x.
Proof. intros Ht. apply visible_update. simpl. token_solver. Qed.

Lemma visible_classList_toggle n t st x :
  t ≠ "is-visible" → visible st x → visible (classList_toggle n t st) x.
Proof. intros Ht. apply visible_update. simpl. token_solver. Qed.

Lemma visible_classList_force n t b st x :
  t ≠ "is-visible" → visible st x → visible (classList_force n t b st) x.
Proof. intros Ht. apply visible_update. simpl. token_solver. Qed.

Lemma visible_setAttribute n a v st x : visible st x → visible (setAttribute n a v st) x.
Proof. by apply visible_update. Qed.

Lemma visible_removeAttribute n a st x : visible st x → visible (removeAttribute n a st) x.
Proof. by apply visible_update. Qed.

Lemma visible_set_textContent n t st x : visible st x → visible (set_textContent n t st) x.
Proof. by apply visible_update. Qed.

Lemma visible_set_className n tokens st x :
  n ≠ x → visible st x → visible (set_className n tokens st) x.
Proof. unfold visible. intros Hne Hx. by dom_cases. Qed.

Lemma visible_unobserve n st x : visible st x → visible (unobserve n st) x.
Proof. done. Qed.

(** One step of reasoning through a handler: peel off its last operation. *)
Ltac visible_step :=
  first
    [ assumption
    | apply visible_classList_add
    | apply visible_classList_remove; [discriminate|]
    | apply visible_classList_toggle; [discriminate|]
    | apply visible_classList_force; [discriminate|]
    | apply visible_setAttribute
    | apply visible_removeAttribute
    | apply visible_set_textContent
    | apply visible_set_className; [congruence|]
    | apply visible_unobserve
    | apply visible_update; [done|] ].

Ltac visible_solver := repeat (visible_step || (case_match; simplify_eq/=)).

Lemma visible_mobileMenuButton_click b m icon st x :
  visible st x → visible (mobileMenuButton_click b m icon st) x.
Proof. intros. unfold mobileMenuButton_click. visible_solver. Qed.

Lemma visible_mobileMenuLink_click b m icon st x :
  visible st x → visible (mobileMenuLink_click b m icon st) x.
Proof. intros. unfold mobileMenuLink_click. visible_solver. Qed.

Lemma visible_anchor_click pg anchor st x :
  visible st x → visible (anchor_click pg anchor st).1 x.
Proof. intros. unfold anchor_click, close_mobile_menu. visible_solver. Qed.

Lemma visible_validateField pg field st x :
  visible st x → visible (validateField pg field st).1 x.
Proof. intros. unfold validateField. visible_solver. Qed.

Lemma visible_validate_each pg fields st ok x :
  visible st x → visible (validate_each pg fields st ok).1 x.
Proof.
  revert st ok. induction fields as [|f fields IH]; intros st ok Hx; simpl; [done|].
  pose proof (visible_validateField pg f st x Hx).
  destruct (validateField pg f st). by apply IH.
Qed.

Lemma visible_show_message pg msg text classes role st x :
  msg ≠ x → visible st x → visible (show_message pg msg text classes role st) x.
Proof. intros. unfold show_message, set_role. visible_solver. Qed.

Lemma visible_contactForm_submit pg msg st x :
  msg ≠ x → visible st x → visible (after (contactForm_submit pg msg st)) x.
Proof.
  intros Hne Hx. unfold contactForm_submit.
  pose proof (visible_validate_each pg (fieldsToValidate pg st) st true x Hx).
  destruct (validate_each pg (fieldsToValidate pg st) st true) as [st' []]; simpl in *.
  - visible_solver.
  - by apply visible_show_message.
Qed.

Lemma visible_reset_form pg st x : visible st x → visible (reset_form pg st) x.
Proof.
  unfold visible. by destruct (reset_form_spec pg st x) as (_ & -> & _).
Qed.

Lemma visible_clear_errors pg fields st x :
  visible st x → visible (clear_errors pg fields st) x.
Proof.
  unfold clear_errors. revert st.
  induction fields as [|f fields IH]; intros st Hx; simpl; [done|].
  apply IH. visible_solver.
Qed.

Lemma visible_contactForm_settled pg msg k o st x :
  msg ≠ x → visible st x → visible (contactForm_settled pg msg k o st) x.
Proof.
  intros Hne Hx. unfold contactForm_settled, restore_button.
  assert (visible (on_error pg msg st) x) by by apply visible_show_message.
  assert (visible
            match o with
            | NetworkError => on_error pg msg st
            | Response ok parsed =>
                match on_response pg msg k ok parsed st with
                | Some st' => st'
                | None => on_error pg msg st
                end
            end x).
  { destruct o as [|ok parsed]; [done|].
    destruct (on_response pg msg k ok parsed st) as [st'|] eqn:Hresp; [|done].
    apply on_response_Some in Hresp as (text & ->). destruct ok.
    - by apply visible_clear_errors, visible_reset_form, visible_show_message.
    - by apply visible_show_message. }
  visible_solver.
Qed.

Lemma intersectionCallback_spec entries st x :
  let st' := intersectionCallback entries st in
  (visible st x → visible st' x)
  ∧ (x ∉ observed st → x ∉ observed st')
  ∧ ((∃ entry, entry ∈ entries ∧ target entry = x ∧ isIntersecting entry = true) →
     visible st' x ∧ x ∉ observed st').
Proof.
  unfold intersectionCallback. revert st.
  induction entries as [|e entries IH]; intros st; simpl.
  - split; [done|]. split; [done|]. by intros (? & ?%elem_of_nil & _).
  - set (st1 := if isIntersecting e
                then unobserve (target e) (classList_add (target e) "is-visible" st)
                else st).
    destruct (IH st1) as (Hvis & Hobs & Hhit).
    assert (Hvis1 : visible st x → visible st1 x).
    { intros Hx. unfold st1. destruct (isIntersecting e); [|done].
      by apply visible_unobserve, visible_classList_add. }
    assert (Hobs1 : x ∉ observed st → x ∉ observed st1).
    { unfold st1. destruct (isIntersecting e); [|done].
      simpl. rewrite list_elem_of_filter. tauto. }
    split; [auto|]. split; [auto|].
    intros (entry & [->|Hin]%elem_of_cons & Ht & Hi); [|apply Hhit; eauto].
    unfold st1 in *. rewrite Hi, Ht in *. split.
    + apply Hvis. unfold visible, unobserve. simpl. dom_cases. token_solver.
    + apply Hobs. simpl. rewrite list_elem_of_filter. tauto.
Qed.

Lemma visible_updateActiveState pg st x :
  visible st x → visible (updateActiveState pg st) x.
Proof.
  unfold updateActiveState. generalize (currentSectionId pg st) as current.
  intros current. generalize (desktopMenuLinks pg ++ mobileMenuLinks pg) as links.
  intros links. revert st.
  induction links as [|l links IH]; intros st Hx; simpl; [done|].
  apply IH. unfold mark_link. visible_solver.
Qed.

(** No event takes the class away, unless the element is the paragraph
    whose class attribute the form handler overwrites. *)
Lemma visible_handle pg ev st x :
  formMessageElement pg ≠ Some x → visible st x → visible (handle pg ev st) x.
Proof.
  intros Hmsg Hx. destruct ev; simpl.
  - repeat case_match; try done. by apply visible_mobileMenuButton_click.
  - repeat case_match; try done. by apply visible_mobileMenuLink_click.
  - repeat case_match; try done. by apply visible_anchor_click.
  - repeat case_match; try done. by apply visible_validateField.
  - repeat case_match; try done. apply visible_contactForm_submit; congruence.
  - repeat case_match; try done. apply visible_contactForm_settled; congruence.
  - case_match; [|done].
    destruct (intersectionCallback_spec entries st x) as (Hvis & _). by apply Hvis.
  - repeat case_match; try done. by apply visible_updateActiveState.
  - by apply visible_update.
  - by apply visible_update.
  - by apply visible_update, visible_update.
  - done.
Qed.

(** ** What keeps the set of observed sections *)

Lemma observed_validateField pg field st :
  observed (validateField pg field st).1 = observed st.
Proof. unfold validateField. by repeat case_match. Qed.

Lemma observed_validate_each pg fields st ok :
  observed (validate_each pg fields st ok).1 = observed st.
Proof.
  revert st ok. induction fields as [|f fields IH]; intros st ok; simpl; [done|].
  pose proof (observed_validateField pg f st).
  destruct (validateField pg f st). rewrite IH. done.
Qed.

Lemma observed_show_message pg msg text classes role st :
  observed (show_message pg msg text classes role st) = observed st.
Proof. unfold show_message, set_role. by case_match. Qed.

Lemma observed_contactForm_submit pg msg st :
  observed (after (contactForm_submit pg msg st)) = observed st.
Proof.
  unfold contactForm_submit.
  pose proof (observed_validate_each pg (fieldsToValidate pg st) st true).
  destruct (validate_each pg (fieldsToValidate pg st) st true) as [st' []]; simpl in *.
  - by repeat case_match.
  - by rewrite observed_show_message.
Qed.

Lemma observed_reset_form pg st : observed (reset_form pg st) = observed st.
Proof.
  unfold reset_form. generalize (formControls pg) as l. intros l. revert st.
  induction l as [|n l IH]; intros st; simpl; [done|]. by rewrite IH.
Qed.

Lemma observed_clear_errors pg fields st : observed (clear_errors pg fields st) = observed st.
Proof.
  unfold clear_errors. revert st.
  induction fields as [|f fields IH]; intros st; simpl; [done|].
  rewrite IH. by case_match.
Qed.

Lemma observed_contactForm_settled pg msg k o st :
  observed (contactForm_settled pg msg k o st) = observed st.
Proof.
  unfold contactForm_settled, restore_button, on_error.
  assert (observed
            match o with
            | NetworkError => show_message pg msg connection_error_message error_classes "alert" st
            | Response ok parsed =>
                match on_response pg msg k ok parsed st with
                | Some st' => st'
                | None => show_message pg msg connection_error_message error_classes "alert" st
                end
            end = observed st) as <-.
  { destruct o as [|ok parsed]; [by rewrite observed_show_message|].
    destruct (on_response pg msg k ok parsed st) as [st'|] eqn:Hresp;
      [|by rewrite observed_show_message].
    apply on_response_Some in Hresp as (text & ->). destruct ok.
    - by rewrite observed_clear_errors, observed_reset_form, observed_show_message.
    - by rewrite observed_show_message. }
  by case_match.
Qed.

Lemma observed_updateActiveState pg st : observed (updateActiveState pg st) = observed st.
Proof.
  unfold updateActiveState. generalize (currentSectionId pg st) as current.
  intros current. generalize (desktopMenuLinks pg ++ mobileMenuLinks pg) as links.
  intros links. revert st.
  induction links as [|l links IH]; intros st; simpl; [done|].
  rewrite IH. unfold mark_link. by case_match.
Qed.

(** No event puts a section back under observation. *)
Lemma observed_handle pg ev st x : x ∉ observed st → x ∉ observed (handle pg ev st).
Proof.
  intros Hx. destruct ev; simpl.
  - unfold mobileMenuButton_click. by repeat case_match.
  - unfold mobileMenuLink_click. by repeat case_match.
  - unfold anchor_click, close_mobile_menu. by repeat case_match.
  - repeat case_match; try done. by rewrite observed_validateField.
  - repeat case_match; try done. by rewrite observed_contactForm_submit.
  - repeat case_match; try done. by rewrite observed_contactForm_settled.
  - case_match; [|done].
    destruct (intersectionCallback_spec entries st x) as (_ & Hobs & _). by apply Hobs.
  - repeat case_match; try done. by rewrite observed_updateActiveState.
  - done.
  - done.
  - done.
  - done.
Qed.

(** ** The observer *)

Lemma observe_each_spec sections st :
  let st' := fold_left (λ st section, observe section st) sections st in
  document st' = document st ∧ observer st' = observer st
  ∧ ∀ s, s ∈ observed st' ↔ s ∈ observed st ∨ s ∈ sections.
Proof.
  revert st. induction sections as [|n sections IH]; intros st; simpl.
  - split; [done|]. split; [done|]. intros s. rewrite elem_of_nil. tauto.
  - destruct (IH (observe n st)) as (-> & -> & Hobs).
    split; [done|]. split; [done|]. intros s. rewrite Hobs, elem_of_cons.
    unfold observe. simpl. case_decide as Hn.
    + split; [tauto|]. intros [?|[->|?]]; tauto.
    + rewrite elem_of_app, list_elem_of_singleton. tauto.
Qed.

(** Past its guard the setup function creates the observer with its
    options and has it observe the fade-in sections, and only them. *)
Lemma setupFadeInAnimations_spec pg st :
  hasIntersectionObserver pg = true → sectionsToFadeIn pg ≠ [] →
  let st' := setupFadeInAnimations pg st in
  document st' = document st ∧ observer st' = Some observerOptions
  ∧ ∀ s, s ∈ observed st' ↔ s ∈ sectionsToFadeIn pg.
Proof.
  intros Hio Hsec. unfold setupFadeInAnimations.
  rewrite Hio, (bool_decide_eq_false_2 _ Hsec). simpl.
  destruct (observe_each_spec (sectionsToFadeIn pg)
              (mkState (document st) (pageYOffset st) (innerWidth st)
                 (Some observerOptions) [])) as (-> & -> & Hobs).
  split; [done|]. split; [done|]. intros s. rewrite Hobs. simpl.
  rewrite elem_of_nil. tauto.
Qed.

(** The callback leaves alone a section that no entry reports as
    intersecting. *)
Lemma intersectionCallback_idle entries st x :
  (∀ entry, entry ∈ entries → target entry = x → isIntersecting entry = false) →
  let st' := intersectionCallback entries st in
  document st' x = document st x ∧ (x ∈ observed st' ↔ x ∈ observed st).
Proof.
  unfold intersectionCallback. revert st.
  induction entries as [|e entries IH]; intros st Hidle; simpl; [done|].
  destruct (IH (if isIntersecting e
                then unobserve (target e) (classList_add (target e) "is-visible" st)
                else st)) as (-> & ->).
  { intros entry Hin. apply Hidle. by right. }
  destruct (isIntersecting e) eqn:He; [|done].
  assert (target e ≠ x) as Hne.
  { intros Ht. by rewrite (Hidle e) in He by (done || by left). }
  split; [unfold unobserve; simpl; by dom_cases|].
  simpl. rewrite list_elem_of_filter. naive_solver.
Qed.

(** C10, as amended: the fade-in sections, and only they, are put under an
    observer whose threshold is 15% of the section, against the viewport;
    when the observer reports a section as intersecting, the callback adds
    the is-visible class to it and stops observing it, and it leaves alone
    a section that is not reported as intersecting; after that no event
    handled by the script observes the section again, and none removes the
    class from it, unless the section is the paragraph for the messages of
    the form, whose class attribute the submit handler overwrites. *)
Theorem fade_in_is_one_shot pg :
  (hasIntersectionObserver pg = true → sectionsToFadeIn pg ≠ [] →
   ∀ st,
     (∃ o, observer (setupFadeInAnimations pg st) = Some o
           ∧ root o = None ∧ rootMargin o = "0px" ∧ threshold o = 15 # 100)
     ∧ ∀ section, section ∈ observed (setupFadeInAnimations pg st)
                  ↔ section ∈ sectionsToFadeIn pg)
  ∧ (∀ entries st section,
       (∃ entry, entry ∈ entries ∧ target entry = section ∧ isIntersecting entry = true) →
       visible (intersectionCallback entries st) section
       ∧ section ∉ observed (intersectionCallback entries st))
  ∧ (∀ entries st section,
       (∀ entry, entry ∈ entries → target entry = section → isIntersecting entry = false) →
       (visible (intersectionCallback entries st) section ↔ visible st section)
       ∧ (section ∈ observed (intersectionCallback entries st) ↔ section ∈ observed st))
  ∧ (∀ events st section,
       formMessageElement pg ≠ Some section →
       visible st section → visible (run pg events st) section)
  ∧ (∀ events st section,
       section ∉ observed st → section ∉ observed (run pg events st)).
Proof.
  split; [|split; [|split; [|split]]].
  - intros Hio Hsec st.
    destruct (setupFadeInAnimations_spec pg st Hio Hsec) as (_ & Hobserver & Hobserved).
    split; [|done]. by exists observerOptions.
  - intros entries st section Hentry.
    by apply (intersectionCallback_spec entries st section).
  - intros entries st section Hidle.
    destruct (intersectionCallback_idle entries st section Hidle) as (Hdoc & Hobs).
    split; [|done]. unfold visible. by rewrite Hdoc.
  - intros events st section Hmsg. unfold run. revert st.
    induction events as [|ev events IH]; intros st Hx; simpl; [done|].
    by apply IH, visible_handle.
  - intros events st section. unfold run. revert st.
    induction events as [|ev events IH]; intros st Hx; simpl; [done|].
    by apply IH, observed_handle.
Qed.

(** * The theorems at sample pages *)

(** Evaluates the classes and attributes of the elements of a sample page. *)
Ltac on_sample :=
  unfold menu_consistent, icon_follows_flag, same_menu, expanded, active, visible,
    getAttribute in *;
  vm_compute classList in *; vm_compute lookup in *.

Lemma email_field_validation_witness :
  ((validateField newsletter_page 1%nat (email_form "ana@example.com")).2 = true
   ↔ email_shape (trim (js "ana@example.com")))
  ∧ (validateField newsletter_page 1%nat (email_form "a@b")).2 = false.
Proof.
  destruct (email_field_validation newsletter_page (email_form "ana@example.com") 1%nat eq_refl)
    as (Hshape & _).
  destruct (email_field_validation newsletter_page (email_form "a@b") 1%nat eq_refl)
    as (_ & _ & _ & Hreject & _).
  split; [apply Hshape; by vm_compute | by apply Hreject].
Defined.

Lemma required_field_validation_witness :
  (validateField newsletter_page 1%nat (newsletter_form "   " false)).2 = false
  ∧ (validateField newsletter_page 1%nat (newsletter_form "Ana" false)).2 = true.
Proof.
  destruct (required_field_validation newsletter_page (newsletter_form "   " false) 1%nat)
    as (_ & Hblank & _); [by eexists|].
  destruct (required_field_validation newsletter_page (newsletter_form "Ana" false) 1%nat)
    as (_ & _ & Htext & _); [by eexists|].
  split; [by apply Hblank | apply Htext; by vm_compute].
Defined.

Lemma menu_closed_consistent :
  menu_consistent 0%nat 1%nat (Some 2%nat) (menu_state "false" ["hidden"] ["fa-bars"]).
Proof.
  on_sample. split; [|intros i [= <-]; on_sample]; set_solver.
Qed.

Lemma menu_operations_keep_consistency_witness :
  menu_consistent 0%nat 1%nat (Some 2%nat)
    (handle menu_page MenuButtonClick (menu_state "false" ["hidden"] ["fa-bars"]))
  ∧ menu_consistent 0%nat 1%nat (Some 2%nat)
      (handle menu_page (AnchorClick 3%nat) (menu_state "false" ["hidden"] ["fa-bars"])).
Proof.
  destruct (menu_operations_keep_consistency menu_page 0%nat 1%nat
              (menu_state "false" ["hidden"] ["fa-bars"]) eq_refl eq_refl
              menu_closed_consistent) as (Hclick & _ & Hanchor).
  split; [exact Hclick | exact (Hanchor 3%nat)].
Defined.

Lemma two_clicks_restore_witness :
  same_menu 0%nat 1%nat (Some 2%nat) (menu_state "false" ["hidden"] ["fa-bars"])
    (mobileMenuButton_click 0%nat 1%nat (Some 2%nat)
       (mobileMenuButton_click 0%nat 1%nat (Some 2%nat)
          (menu_state "false" ["hidden"] ["fa-bars"]))).
Proof.
  apply (two_clicks_restore 0%nat 1%nat (Some 2%nat)
           (menu_state "false" ["hidden"] ["fa-bars"])).
  intros i [= <-]. on_sample. set_solver.
Defined.

(** C9, as stated, fails: from a closed menu whose icon shows the cross, two
    clicks leave the icon on the bars. *)
Lemma two_clicks_change_stray_icon :
  ¬ same_menu 0%nat 1%nat (Some 2%nat) (menu_state "false" ["hidden"] ["fa-times"])
      (mobileMenuButton_click 0%nat 1%nat (Some 2%nat)
         (mobileMenuButton_click 0%nat 1%nat (Some 2%nat)
            (menu_state "false" ["hidden"] ["fa-times"]))).
Proof.
  intros (_ & _ & Hicon). destruct (Hicon 2%nat eq_refl) as [Hbars _]. clear Hicon.
  on_sample. rewrite !elem_of_cons, !elem_of_nil in Hbars. intuition discriminate.
Qed.

(** At 500 the section 'servicios', whose top is at 600, is current: its
    adjusted top is 476. *)
Lemma updateActiveState_marks_current_witness :
  active (updateActiveState sections_page (sections_state 500)) 3%nat
  ∧ ¬ active (updateActiveState sections_page (sections_state 500)) 2%nat.
Proof.
  destruct (updateActiveState_marks_current sections_page (sections_state 500)) as (Hlast & _).
  assert (Hmark := Hlast [0%nat] 1%nat [] eq_refl).
  assert (Hlinks : ∀ link, link ∈ [2; 3]%nat →
            (active (updateActiveState sections_page (sections_state 500)) link
             ↔ getAttribute (sections_state 500) link "href" = Some "#servicios")).
  { apply Hmark.
    - by vm_compute.
    - by vm_compute.
    - by intros x ?%elem_of_nil. }
  split.
  - apply Hlinks; [|by vm_compute]. set_solver.
  - intros Hactive. apply Hlinks in Hactive; [|set_solver].
    by vm_compute in Hactive.
Defined.

(** C7, as stated, fails: when the last section reached has an empty id,
    the rule for 'inicio' applies, and the link marked is the one to
    '#inicio', not the one whose href is '#'. *)
Lemma unnamed_section_marks_inicio :
  ¬ marks_last_reached unnamed_section_page unnamed_section_state.
Proof.
  intros Hclaim.
  assert (Hlink := Hclaim [0%nat] 1%nat [] eq_refl).
  assert (active (updateActiveState unnamed_section_page unnamed_section_state) 2%nat
          ↔ getAttribute unnamed_section_state 2%nat "href"
            = Some ("#" +:+ element_id unnamed_section_state 1%nat)) as Hiff.
  { apply Hlink.
    - by vm_compute.
    - by intros x ?%elem_of_nil.
    - unfold nav_links. simpl. set_solver. }
  assert (active (updateActiveState unnamed_section_page unnamed_section_state) 2%nat)
    as Hactive by (clear; on_sample; set_solver).
  apply Hiff in Hactive. by vm_compute in Hactive.
Qed.

Lemma fade_in_is_one_shot_witness :
  (1%nat ∈ observed (setupFadeInAnimations sections_page (sections_state 500)))
  ∧ visible
      (run sections_page [ScrollTimer; AnchorClick 2%nat; UserScroll 900]
         (intersectionCallback [mkEntry 1%nat true]
            (setupFadeInAnimations sections_page (sections_state 500)))) 1%nat
  ∧ ¬ visible
        (intersectionCallback [mkEntry 1%nat false]
           (setupFadeInAnimations sections_page (sections_state 500))) 1%nat.
Proof.
  destruct (fade_in_is_one_shot sections_page) as (Hsetup & Hadd & Hidle & Hkeep & _).
  split; [|split].
  - apply (Hsetup eq_refl); [discriminate|]. set_solver.
  - apply Hkeep; [discriminate|].
    apply Hadd. exists (mkEntry 1%nat true). split; [set_solver|done].
  - destruct (Hidle [mkEntry 1%nat false]
                (setupFadeInAnimations sections_page (sections_state 500)) 1%nat)
      as [Hsame _]; [by intros entry ->%list_elem_of_singleton|].
    rewrite Hsame. clear. on_sample. set_solver.
Defined.

(** C10, as stated, fails: the paragraph for the messages of the form, when
    it is a fade-in section, loses the class at the next submission, whose
    handler assigns its class attribute. *)
Lemma submit_hides_fading_message :
  ¬ never_hidden_again fading_message_page fading_message_state 4%nat.
Proof.
  intros Hclaim.
  assert (visible fading_message_state 4%nat) as Hvisible by (clear; on_sample; set_solver).
  specialize (Hclaim Hvisible [FormSubmit]). clear Hvisible.
  on_sample. set_solver.
Qed.

(** * Further properties of the code *)

(** ** trim *)

Lemma trimStart_head s c : list.head (trimStart s) = Some c → is_space c = false.
Proof.
  induction s as [|a s IH]; simpl; [done|].
  destruct (is_space a) eqn:Ha; [done|]. simpl. by intros [= <-].
Qed.

Lemma trimStart_fixed s :
  (∀ c, list.head s = Some c → is_space c = false) → trimStart s = s.
Proof.
  destruct s as [|a s]; simpl; [done|]. intros H. by rewrite (H a eq_refl).
Qed.

Lemma trimEnd_split s :
  ∃ q, s = trimEnd s ++ q ∧ blank q
       ∧ ∀ c, list.last (trimEnd s) = Some c → is_space c = false.
Proof.
  unfold trimEnd.
  destruct (trimStart_suffix (reverse s)) as (p & Hs & Hp).
  exists (reverse p). split; [|split].
  - rewrite <- reverse_app, <- Hs. by rewrite reverse_involutive.
  - by apply Forall_reverse.
  - intros c. rewrite last_reverse. apply trimStart_head.
Qed.

Lemma trimEnd_fixed s :
  (∀ c, list.last s = Some c → is_space c = false) → trimEnd s = s.
Proof.
  intros H. unfold trimEnd. rewrite trimStart_fixed; [apply reverse_involutive|].
  intros c. rewrite head_reverse. apply H.
Qed.

Lemma trim_split s :
  (∃ p q, s = p ++ trim s ++ q ∧ blank p ∧ blank q)
  ∧ (∀ c, list.head (trim s) = Some c → is_space c = false)
  ∧ (∀ c, list.last (trim s) = Some c → is_space c = false).
Proof.
  unfold trim.
  destruct (trimStart_suffix s) as (p & Hs & Hp).
  destruct (trimEnd_split (trimStart s)) as (q & Ht & Hq & Hlast).
  split; [|split; [|done]].
  - exists p, q. split; [|done]. by rewrite <- Ht.
  - intros c Hc. apply (trimStart_head s). rewrite Ht.
    destruct (trimEnd (trimStart s)); [done|]. exact Hc.
Qed.

Lemma trim_idempotent s : trim (trim s) = trim s.
Proof.
  destruct (trim_split s) as (_ & Hhead & Hlast).
  unfold trim at 1. rewrite (trimStart_fixed _ Hhead). by apply trimEnd_fixed.
Qed.

(** X1: trim removes white space from the two ends of a string and nothing
    else: the string is the trimmed one between two runs of white space, the
    trimmed string neither begins nor ends with white space, and trimming it
    again changes nothing. *)
Theorem trim_strips_the_ends s :
  (∃ p q, s = p ++ trim s ++ q ∧ blank p ∧ blank q)
  ∧ (∀ c, list.head (trim s) = Some c → is_space c = false)
  ∧ (∀ c, list.last (trim s) = Some c → is_space c = false)
  ∧ trim (trim s) = trim s.
Proof.
  destruct (trim_split s) as (Hsplit & Hhead & Hlast).
  repeat split; try done. apply trim_idempotent.
Qed.

(** ** validateField and what it shows *)

(** [validateField] with its verdict computed on the field as it was. *)
Lemma validateField_eq pg f st :
  validateField pg f st =
  let errorElement := errorElement_for pg st f in
  let st1 := classList_remove f "border-red-500" st in
  let st2 := match errorElement with
             | Some e => classList_add e "hidden" st1
             | None => st1
             end in
  if field_valid (document st f) then (st2, true)
  else
    (match errorElement with
     | Some e =>
         classList_remove e "hidden"
           (set_textContent e (check_field (document st f)).2
              (classList_add f "border-red-500" st2))
     | None => classList_add f "border-red-500" st2
     end, false).
Proof.
  unfold validateField, field_valid.
  assert (Hsame : ∀ st', data_of (document st' f) = data_of (document st f) →
                         check_field (document st' f) = check_field (document st f))
    by (intros; by apply check_field_same).
  destruct (errorElement_for pg st f) as [e|]; cbv zeta.
  - rewrite (Hsame (classList_add e "hidden" (classList_remove f "border-red-500" st)))
      by data_solver.
    by destruct (check_field (document st f)) as [[] msg].
  - rewrite (Hsame (classList_remove f "border-red-500" st)) by data_solver.
    by destruct (check_field (document st f)) as [[] msg].
Qed.

Lemma check_field_message e :
  field_valid e = false →
  (check_field e).2 =
  if is_empty (trim (value e)) then "Este campo es obligatorio."
  else "Por favor, introduzca un correo electrónico válido.".
Proof.
  unfold field_valid, check_field.
  destruct (trim (value e)) as [|c v]; cbn [is_empty negb].
  - rewrite andb_true_r, andb_false_r. cbn [andb]. by case_bool_decide.
  - rewrite andb_false_r. by case_match.
Qed.

(** X2: what validateField shows.  The field carries the red border exactly
    when it is rejected.  Its error element, when the form has one, is
    hidden exactly when the field is accepted, and for a rejected field it
    reads "Este campo es obligatorio." if nothing is left of the value after
    trimming -- also for an e-mail field -- and the e-mail message
    otherwise. *)
Theorem validateField_display pg f st :
  let st' := (validateField pg f st).1 in
  let ok := (validateField pg f st).2 in
  ("border-red-500" ∈ classList (document st' f) ↔ ok = false)
  ∧ ∀ e, errorElement_for pg st f = Some e →
      ("hidden" ∈ classList (document st' e) ↔ ok = true)
      ∧ (ok = false → trim (value (document st f)) = [] →
         textContent (document st' e) = "Este campo es obligatorio.")
      ∧ (ok = false → trim (value (document st f)) ≠ [] →
         textContent (document st' e)
         = "Por favor, introduzca un correo electrónico válido.").
Proof.
  cbv zeta. rewrite validateField_eq. cbv zeta.
  pose proof (check_field_message (document st f)) as Hmsg.
  destruct (field_valid (document st f)) eqn:Hok; simpl.
  - split.
    + destruct (errorElement_for pg st f); dom_cases; token_solver.
    + intros e ->. split; [|done]. dom_cases; token_solver.
  - rewrite Hmsg by done. split.
    + destruct (errorElement_for pg st f); dom_cases; token_solver.
    + intros e ->. split; [|split].
      * dom_cases; token_solver.
      * intros _ ->. by dom_cases.
      * intros _ Hv. destruct (trim (value (document st f))); [done|]. by dom_cases.
Qed.

(** X3: a field that is not required is accepted when it is left empty or
    blank, whatever its type, and a field that is neither required nor an
    e-mail field is accepted with any value. *)
Theorem optional_field_validation pg f st :
  getAttribute st f "required" = None →
  (trim (value (document st f)) = [] → (validateField pg f st).2 = true)
  ∧ (type (document st f) ≠ "email" → (validateField pg f st).2 = true).
Proof.
  intros Hreq. rewrite validateField_verdict. unfold field_valid, check_field.
  unfold getAttribute in Hreq. rewrite Hreq.
  rewrite bool_decide_eq_false_2 by by intros [? ?]. cbn [andb]. split.
  - intros ->. cbn [is_empty negb]. by rewrite andb_false_r.
  - intros Hty. by rewrite (bool_decide_eq_false_2 _ Hty).
Qed.

(** X4: white space around the value does not count: validateField gives the
    same verdict for a field and for the field holding its trimmed value. *)
Theorem validateField_ignores_surrounding_space pg f st :
  (validateField pg f (update f (with_value (trim (value (document st f)))) st)).2
  = (validateField pg f st).2.
Proof.
  rewrite !validateField_verdict. unfold field_valid, check_field.
  unfold update. cbn [document]. rewrite alter_apply, decide_True by done.
  cbn [value type attributes with_value]. by rewrite trim_idempotent.
Qed.

(** X5: validateField changes the display of one field and nothing else.
    No element loses or gains anything but classes and text; an element
    other than the field and its error element is left exactly as it was;
    and only the error element has its text written. *)
Theorem validateField_touches_only_the_display pg f st x :
  let st' := (validateField pg f st).1 in
  data_of (document st' x) = data_of (document st x)
  ∧ (errorElement_for pg st f ≠ Some x →
     textContent (document st' x) = textContent (document st x))
  ∧ (x ≠ f → errorElement_for pg st f ≠ Some x → document st' x = document st x)
  ∧ observed st' = observed st ∧ pageYOffset st' = pageYOffset st.
Proof.
  cbv zeta. split; [apply validateField_data|].
  rewrite validateField_eq. cbv zeta.
  destruct (errorElement_for pg st f) as [e|], (field_valid (document st f));
    simpl; repeat split; try done; intros; dom_cases; congruence.
Qed.

Lemma validateField_errorElement pg f g st :
  errorElement_for pg (validateField pg f st).1 g = errorElement_for pg st g.
Proof.
  apply errorElement_for_attributes. intros x.
  by apply (f_equal attributes (validateField_data pg f st x)).
Qed.

(** X6: validating a field a second time, with nothing changed in between,
    gives the same verdict and leaves every element with the same classes
    and the same text. *)
Theorem validateField_twice pg f st x :
  let st1 := (validateField pg f st).1 in
  let st2 := (validateField pg f st1).1 in
  (validateField pg f st1).2 = (validateField pg f st).2
  ∧ but_classes (document st2 x) = but_classes (document st1 x)
  ∧ ∀ t, t ∈ classList (document st2 x) ↔ t ∈ classList (document st1 x).
Proof.
  cbv zeta.
  assert (Hcheck : check_field (document (validateField pg f st).1 f)
                   = check_field (document st f))
    by apply check_field_same, validateField_data.
  split; [by rewrite !validateField_verdict; unfold field_valid; rewrite Hcheck|].
  rewrite (validateField_eq pg f (validateField pg f st).1). cbv zeta.
  rewrite validateField_errorElement. unfold field_valid. rewrite Hcheck.
  rewrite (validateField_eq pg f st). cbv zeta. unfold field_valid.
  destruct (errorElement_for pg st f) as [e|], (check_field (document st f)) as [[] msg];
    simpl; (split; [|intros t]); dom_cases; try done; token_solver.
Qed.

(** ** The submit handler, before the request *)

Lemma validateField_border pg g st x :
  let st' := (validateField pg g st).1 in
  (x = g → ("border-red-500" ∈ classList (document st' x)
            ↔ field_valid (document st g) = false))
  ∧ (x ≠ g → ("border-red-500" ∈ classList (document st' x)
              ↔ "border-red-500" ∈ classList (document st x))).
Proof.
  cbv zeta. rewrite validateField_eq. cbv zeta.
  destruct (errorElement_for pg st g) as [e|], (field_valid (document st g));
    simpl; split; intros; dom_cases; token_solver.
Qed.

Lemma validate_each_border pg fields st ok x :
  let st' := (validate_each pg fields st ok).1 in
  (x ∈ fields → ("border-red-500" ∈ classList (document st' x)
                 ↔ field_valid (document st x) = false))
  ∧ (x ∉ fields → ("border-red-500" ∈ classList (document st' x)
                   ↔ "border-red-500" ∈ classList (document st x))).
Proof.
  revert st ok. induction fields as [|g fields IH]; intros st ok; simpl.
  - split; [by intros ?%elem_of_nil|done].
  - pose proof (validateField_border pg g st x) as [Hg Hother].
    pose proof (validateField_data pg g st x) as Hdata.
    destruct (validateField pg g st) as [st1 b]; simpl in *.
    destruct (IH st1 (if b then ok else false)) as [Hin Hout].
    assert (Hvalid : field_valid (document st1 x) = field_valid (document st x))
      by (unfold field_valid; by rewrite (check_field_same _ _ Hdata)).
    split.
    + intros Hx. destruct (decide (x ∈ fields)) as [Hrest|Hrest].
      * by rewrite (Hin Hrest), Hvalid.
      * apply elem_of_cons in Hx as [->|?]; [|done]. by rewrite (Hout Hrest), Hg.
    + intros [Hne Hrest]%not_elem_of_cons. by rewrite (Hout Hrest), Hother.
Qed.

(** X7: a submission validates every field and stops at none: afterwards
    each required or e-mail field (other than the paragraph for messages)
    carries the red border exactly when validateField rejects it. *)
Theorem submit_marks_every_rejected_field pg msg st f :
  f ∈ formDescendants pg →
  required_or_email (document st f) →
  f ≠ msg →
  "border-red-500" ∈ classList (document (after (contactForm_submit pg msg st)) f)
  ↔ (validateField pg f st).2 = false.
Proof.
  intros Hin Hsel Hne. assert (f ∈ fieldsToValidate pg st) as Hf
    by by apply fieldsToValidate_iff.
  clear Hin Hsel. rewrite validateField_verdict.
  destruct (validate_each_border pg (fieldsToValidate pg st) st true f) as [Hin _].
  rewrite <- (Hin Hf). unfold contactForm_submit, show_message, set_role.
  destruct (validate_each pg (fieldsToValidate pg st) st true) as [st' []]; simpl;
    repeat case_match; simpl; dom_cases; done.
Qed.

(** X8: while the request is under way the submit button is disabled and
    reads "Enviando...", the message reads "Procesando su solicitud..." in
    the progress style, and the container has no role. *)
Theorem submit_shows_progress pg msg b st :
  submitButton pg = Some b →
  b ≠ msg →
  fields_acceptable pg st →
  let st' := after (contactForm_submit pg msg st) in
  disabled (document st' b) = true
  ∧ textContent (document st' b) = "Enviando..."
  ∧ textContent (document st' msg) = "Procesando su solicitud..."
  ∧ classList (document st' msg) = ["text-center"; "text-sm"; "text-sky-600"]
  ∧ ∀ c, formMessageContainer pg = Some c → getAttribute st' c "role" = None.
Proof.
  intros Hb Hne Hvalid. rewrite <- all_valid_acceptable, all_valid_iff in Hvalid.
  pose proof (validate_each_verdict pg (fieldsToValidate pg st) st true) as Hv.
  unfold contactForm_submit.
  destruct (validate_each pg (fieldsToValidate pg st) st true) as [st' ok]; simpl in *.
  assert (ok = true) as -> by (apply Hv; by split).
  simpl. rewrite Hb. simpl.
  destruct (formMessageContainer pg) as [c|]; repeat split; try done;
    try (intros ? [= <-]); dom_cases; by rewrite ?lookup_delete_eq.
Qed.

Lemma validateField_accepted_text pg f st x :
  (validateField pg f st).2 = true →
  textContent (document (validateField pg f st).1 x) = textContent (document st x).
Proof.
  rewrite validateField_eq. cbv zeta.
  destruct (field_valid (document st f)); [|done]. intros _.
  destruct (errorElement_for pg st f); simpl; by dom_cases.
Qed.

Lemma validate_each_accepted_text pg fields st ok x :
  (validate_each pg fields st ok).2 = true →
  textContent (document (validate_each pg fields st ok).1 x) = textContent (document st x).
Proof.
  revert st ok. induction fields as [|g fields IH]; intros st ok; simpl; [done|].
  pose proof (validateField_accepted_text pg g st x) as Hg.
  destruct (validateField pg g st) as [st1 b]; simpl in *.
  intros Hall. rewrite (IH _ _ Hall).
  apply validate_each_verdict in Hall as [Hacc _].
  destruct b; [by apply Hg|done].
Qed.

(** X9: whatever happens to the request, and whatever happens to the page
    while it is under way, the handler ends with the submit button enabled
    and reading what it read when the form was submitted. *)
Theorem submit_then_settle_restores_button pg msg b st k :
  submitButton pg = Some b →
  pending (contactForm_submit pg msg st) = Some k →
  ∀ o st',
    disabled (document (contactForm_settled pg msg k o st') b) = false
    ∧ textContent (document (contactForm_settled pg msg k o st') b)
      = textContent (document st b).
Proof.
  intros Hb Hk o st'.
  assert (originalButtonText k = textContent (document st b)) as <-.
  { revert Hk. unfold contactForm_submit.
    pose proof (validate_each_accepted_text pg (fieldsToValidate pg st) st true b) as Htext.
    destruct (validate_each pg (fieldsToValidate pg st) st true) as [st1 []];
      simpl in *; [|done].
    rewrite Hb. simpl. intros [= <-]. simpl. by apply Htext. }
  unfold contactForm_settled. by apply restore_button_button.
Qed.

(** X10: a form without a button[type=submit] never sends anything: the
    handler stops on the missing button before it reaches fetch, also when
    every field is valid. *)
Theorem submit_without_button_sends_nothing pg msg st :
  submitButton pg = None →
  fetched (contactForm_submit pg msg st) = []
  ∧ pending (contactForm_submit pg msg st) = None.
Proof.
  intros Hb. unfold contactForm_submit.
  destruct (validate_each pg (fieldsToValidate pg st) st true) as [st' []]; simpl; [|done].
  by rewrite Hb.
Qed.

(** X11: submitting never alters what the user entered: every control keeps
    its value, its checkedness and its selection, whether the form is
    rejected or sent. *)
Theorem submit_keeps_entries pg msg st x :
  let st' := after (contactForm_submit pg msg st) in
  value (document st' x) = value (document st x)
  ∧ checked (document st' x) = checked (document st x)
  ∧ selectedOptions (document st' x) = selectedOptions (document st x).
Proof.
  cbv zeta.
  pose proof (validate_each_data pg (fieldsToValidate pg st) st true x) as Hdata.
  pose proof (f_equal value Hdata) as Hv. pose proof (f_equal checked Hdata) as Hc.
  pose proof (f_equal selectedOptions Hdata) as Hs. simpl in Hv, Hc, Hs.
  rewrite <- Hv, <- Hc, <- Hs. clear Hdata Hv Hc Hs.
  unfold contactForm_submit, show_message, set_role.
  destruct (validate_each pg (fieldsToValidate pg st) st true) as [st' []]; simpl;
    repeat case_match; simpl; by dom_cases.
Qed.

Lemma fromEntries_lookup entries k :
  fromEntries entries !! k = snd <$> list.last (filter (λ p, p.1 = k) entries).
Proof.
  unfold fromEntries.
  assert (Hgen : ∀ (obj : gmap string EntryValue),
            fold_left (λ obj p, <[p.1 := p.2]> obj) entries obj !! k
            = match list.last (filter (λ p, p.1 = k) entries) with
              | Some p => Some p.2
              | None => obj !! k
              end).
  { induction entries as [|[name v] entries IH]; intros obj; simpl; [done|].
    rewrite IH, filter_cons. simpl. case_decide as Hname.
    - subst name. rewrite last_cons.
      destruct (list.last (filter _ entries)); [done|]. simpl. by rewrite lookup_insert_eq.
    - destruct (list.last (filter _ entries)); [done|]. by rewrite lookup_insert_ne. }
  rewrite Hgen. by destruct (list.last (filter _ entries)).
Qed.

(** X12: the body maps each name to the value of the last entry of that name
    in the form data set: when two successful controls share a name, the
    one later in the form is the one sent. *)
Theorem body_holds_the_last_entry pg msg b st :
  submitButton pg = Some b →
  fields_acceptable pg st →
  ∃ req,
    fetched (contactForm_submit pg msg st) = [req]
    ∧ ∀ name,
        body req !! name
        = snd <$> list.last (filter (λ p, p.1 = name)
                               (FormData pg (after (contactForm_submit pg msg st)))).
Proof.
  intros Hb Hvalid%all_valid_acceptable.
  destruct (contactForm_submit_valid pg msg b st Hb Hvalid)
    as (req & Hreq & _ & _ & _ & Hbody & _).
  exists req. split; [done|]. intros name. rewrite Hbody. apply fromEntries_lookup.
Qed.

(** ** The submit handler, after the request *)

Lemma same_entries_of_data before after :
  control_data after = control_data before → same_entries before after.
Proof.
  intros Hdata. apply (same_entries_data before before after); [done|].
  by repeat split.
Qed.

(** X13: the form is reset by nothing but a success response that can be
    read: after a transport failure, a failure response, or a response whose
    body is unreadable or null, every element has the value, the checked
    state and the selection it had. *)
Theorem only_success_resets pg msg k o st x :
  (∀ result, o = Response true (Some result) → result = JNull) →
  same_entries (document st x) (document (contactForm_settled pg msg k o st) x).
Proof.
  intros Ho. apply same_entries_of_data. unfold contactForm_settled.
  destruct (but_button_state_fields _ _
    (restore_button_frame pg k
       match o with
       | NetworkError => on_error pg msg st
       | Response ok parsed =>
           match on_response pg msg k ok parsed st with
           | Some st' => st'
           | None => on_error pg msg st
           end
       end x)) as (_ & _ & ->).
  unfold on_error.
  destruct o as [|ok parsed]; [apply show_message_frame|].
  destruct (on_response pg msg k ok parsed st) as [st'|] eqn:Hresp;
    [|apply show_message_frame].
  destruct (on_response_Some _ _ _ _ _ _ _ Hresp) as (text & ->).
  destruct ok; [|apply show_message_frame].
  destruct parsed as [result|]; [|done].
  by rewrite (Ho result eq_refl) in Hresp.
Qed.

(** ** The mobile menu *)

Lemma mobileMenuLink_click_hides b m icon st :
  "hidden" ∈ classList (document (mobileMenuLink_click b m icon st) m).
Proof.
  unfold mobileMenuLink_click, contains. case_bool_decide; simpl; [done|].
  destruct icon; dom_cases; token_solver.
Qed.

(** X14: a click on a link of the mobile menu leaves the panel hidden, and a
    second click changes nothing more.  If the panel was showing, the flag
    is now "false" and the icon shows the bars and not the cross. *)
Theorem mobileMenuLink_click_closes b m icon st :
  let st' := mobileMenuLink_click b m icon st in
  "hidden" ∈ classList (document st' m)
  ∧ mobileMenuLink_click b m icon st' = st'
  ∧ ("hidden" ∉ classList (document st m) →
     getAttribute st' b "aria-expanded" = Some "false"
     ∧ ∀ i, icon = Some i →
         "fa-bars" ∈ classList (document st' i) ∧ "fa-times" ∉ classList (document st' i)).
Proof.
  cbv zeta.
  pose proof (mobileMenuLink_click_hides b m icon st) as Hhidden.
  split; [done|]. split.
  - unfold mobileMenuLink_click at 1. unfold contains.
    by rewrite bool_decide_eq_true_2.
  - intros Hopen. unfold mobileMenuLink_click, contains.
    rewrite bool_decide_eq_false_2 by done. simpl.
    split; [destruct icon; dom_cases; by rewrite lookup_insert_eq|].
    intros i ->. dom_cases; token_solver.
Qed.

(** X15: the two listeners of the menu touch the button, the panel and the
    icon only: every other element, the scroll position and the observer
    are as before. *)
Theorem menu_clicks_touch_the_menu_only b m icon st x :
  x ≠ b → x ≠ m → icon ≠ Some x →
  document (mobileMenuButton_click b m icon st) x = document st x
  ∧ document (mobileMenuLink_click b m icon st) x = document st x
  ∧ observed (mobileMenuButton_click b m icon st) = observed st
  ∧ observed (mobileMenuLink_click b m icon st) = observed st
  ∧ pageYOffset (mobileMenuButton_click b m icon st) = pageYOffset st
  ∧ pageYOffset (mobileMenuLink_click b m icon st) = pageYOffset st.
Proof.
  intros Hb Hm Hi. unfold mobileMenuButton_click, mobileMenuLink_click.
  destruct icon as [i|]; repeat split; repeat case_match; simpl; dom_cases; congruence.
Qed.

(** ** The smooth-scroll listener *)

Lemma anchor_click_idle_outside pg this st :
  this ∉ mobileMenuLinks pg → (anchor_click pg this st).1 = st.
Proof.
  intros Hout. unfold anchor_click.
  repeat case_match; simpl; try done.
  all: match goal with
  | H : _ && bool_decide _ = true |- _ =>
      by rewrite (bool_decide_eq_false_2 _ Hout), andb_false_r in H
  end.
Qed.

Lemma anchor_click_idle_when_hidden pg this m st :
  mobileMenu pg = Some m →
  "hidden" ∈ classList (document st m) → (anchor_click pg this st).1 = st.
Proof.
  intros Hm Hhidden. unfold anchor_click, contains. rewrite Hm.
  repeat case_match; simpl; try done.
  all: match goal with
  | H : negb (bool_decide _) && _ = true |- _ =>
      by rewrite (bool_decide_eq_true_2 _ Hhidden) in H
  end.
Qed.

Lemma close_mobile_menu_hides pg m st :
  "hidden" ∈ classList (document (close_mobile_menu pg m st) m).
Proof. unfold close_mobile_menu. repeat case_match; dom_cases; token_solver. Qed.

(** X16: the smooth-scroll listener changes the page only to close an opened
    mobile menu from one of its own links: for a link outside the mobile
    menu, when nothing is scrolled to, or when the panel is already hidden,
    the page is left as it is; for a link of the mobile menu whose target
    exists the panel is hidden afterwards. *)
Theorem anchor_click_effect pg this st :
  (this ∉ mobileMenuLinks pg → (anchor_click pg this st).1 = st)
  ∧ ((anchor_click pg this st).2 = None → (anchor_click pg this st).1 = st)
  ∧ (∀ m, mobileMenu pg = Some m →
       ("hidden" ∈ classList (document st m) → (anchor_click pg this st).1 = st)
       ∧ (this ∈ mobileMenuLinks pg → (anchor_click pg this st).2 ≠ None →
          "hidden" ∈ classList (document (anchor_click pg this st).1 m))).
Proof.
  split; [apply anchor_click_idle_outside|]. split.
  - unfold anchor_click. repeat case_match; simpl; done.
  - intros m Hm. split; [by apply anchor_click_idle_when_hidden|].
    intros Hin. unfold anchor_click, contains. rewrite Hm.
    repeat case_match; simpl; try done; intros _;
      try apply close_mobile_menu_hides.
    all: destruct (decide ("hidden" ∈ classList (document st m))) as [|Hno]; [done|].
    all: match goal with
         | H : negb (bool_decide _) && _ = false |- _ =>
             by rewrite (bool_decide_eq_false_2 _ Hno), (bool_decide_eq_true_2 _ Hin) in H
         end.
Qed.

(** X17: a click on a link of the mobile menu runs both listeners, the one
    of the menu first; by then the panel is hidden, so the smooth-scroll
    listener leaves the page as the first one left it. *)
Theorem second_close_is_idle pg b m link st :
  mobileMenu pg = Some m →
  (anchor_click pg link (mobileMenuLink_click b m (menuIcon pg) st)).1
  = mobileMenuLink_click b m (menuIcon pg) st.
Proof.
  intros Hm. apply (anchor_click_idle_when_hidden pg link m); [done|].
  apply mobileMenuLink_click_hides.
Qed.

(** ** The active link *)

Lemma mark_link_frame current st link x :
  let st' := mark_link current st link in
  but_classes (document st' x) = but_classes (document st x)
  ∧ (∀ t, t ≠ "nav-link-active" →
       (t ∈ classList (document st' x) ↔ t ∈ classList (document st x)))
  ∧ pageYOffset st' = pageYOffset st ∧ observed st' = observed st.
Proof.
  unfold mark_link. case_bool_decide; repeat split; try done;
    try intros t Ht; dom_cases; try done; token_solver.
Qed.

Lemma mark_links_frame current links st x :
  let st' := fold_left (mark_link current) links st in
  but_classes (document st' x) = but_classes (document st x)
  ∧ (∀ t, t ≠ "nav-link-active" →
       (t ∈ classList (document st' x) ↔ t ∈ classList (document st x)))
  ∧ pageYOffset st' = pageYOffset st ∧ observed st' = observed st.
Proof.
  revert st. induction links as [|l links IH]; intros st; simpl; [done|].
  destruct (IH (mark_link current st l)) as (-> & Hcls & -> & ->).
  destruct (mark_link_frame current st l x) as (-> & Hcls1 & -> & ->).
  repeat split; try done.
  - intros Hin. apply Hcls1; [done|]. by apply Hcls.
  - intros Hin. apply Hcls; [done|]. by apply Hcls1.
Qed.

Lemma currentSectionId_same pg st st' :
  (∀ x, but_classes (document st' x) = but_classes (document st x)) →
  pageYOffset st' = pageYOffset st →
  currentSectionId pg st' = currentSectionId pg st.
Proof.
  intros Hdoc Hscroll.
  assert (Hid : ∀ s, element_id st' s = element_id st s).
  { intros s. unfold element_id, getAttribute. by rewrite (but_classes_attributes _ _ (Hdoc s)). }
  assert (Htop : ∀ s, offsetTop (document st' s) = offsetTop (document st s)).
  { intros s. exact (f_equal offsetTop (Hdoc s)). }
  assert (Hreached : ∀ s, reached pg st' s = reached pg st s).
  { intros s. unfold reached, sectionTop. by rewrite Htop, Hscroll. }
  unfold currentSectionId, scan_sections.
  assert (∀ l current,
            fold_left (λ current s, if reached pg st' s then element_id st' s else current)
              l current
            = fold_left (λ current s, if reached pg st s then element_id st s else current)
                l current) as ->.
  { induction l as [|s l IH]; intros current; simpl; [done|].
    by rewrite IH, Hreached, Hid. }
  destruct (sectionsForNavHighlight pg) as [|first rest]; [done|].
  by rewrite Hid, Htop, Hscroll.
Qed.

Lemma updateActiveState_frame pg st x :
  but_classes (document (updateActiveState pg st) x) = but_classes (document st x)
  ∧ (∀ t, t ≠ "nav-link-active" →
       (t ∈ classList (document (updateActiveState pg st) x)
        ↔ t ∈ classList (document st x)))
  ∧ pageYOffset (updateActiveState pg st) = pageYOffset st
  ∧ observed (updateActiveState pg st) = observed st.
Proof. apply mark_links_frame. Qed.

Lemma updateActiveState_again pg st x t :
  t ∈ classList (document (updateActiveState pg (updateActiveState pg st)) x)
  ↔ t ∈ classList (document (updateActiveState pg st) x).
Proof.
  destruct (updateActiveState_frame pg st x) as (Hdoc & _ & Hscroll & _).
  destruct (decide (t = "nav-link-active")) as [->|Ht].
  - destruct (decide (x ∈ nav_links pg)) as [Hx|Hx].
    + destruct (updateActiveState_spec pg (updateActiveState pg st) x) as (Hmark1 & _).
      destruct (updateActiveState_spec pg st x) as (Hmark & _).
      specialize (Hmark1 Hx). specialize (Hmark Hx). unfold active in *.
      rewrite Hmark1, Hmark.
      rewrite (currentSectionId_same pg st (updateActiveState pg st));
        [|intros y; apply updateActiveState_frame|done].
      unfold getAttribute. by rewrite (but_classes_attributes _ _ Hdoc).
    + by destruct (updateActiveState_spec pg (updateActiveState pg st) x) as (_ & ->).
  - destruct (updateActiveState_frame pg (updateActiveState pg st) x) as (_ & Hcls & _).
    by apply Hcls.
Qed.

(** X18: updateActiveState changes nothing but the nav-link-active class: no
    element gains or loses any other class or anything that is not a class,
    the scroll position and the observer are untouched; and running it again
    leaves every class as it is. *)
Theorem updateActiveState_only_marks pg st x :
  but_classes (document (updateActiveState pg st) x) = but_classes (document st x)
  ∧ (∀ t, t ≠ "nav-link-active" →
       (t ∈ classList (document (updateActiveState pg st) x)
        ↔ t ∈ classList (document st x)))
  ∧ pageYOffset (updateActiveState pg st) = pageYOffset st
  ∧ observed (updateActiveState pg st) = observed st
  ∧ ∀ t, t ∈ classList (document (updateActiveState pg (updateActiveState pg st)) x)
         ↔ t ∈ classList (document (updateActiveState pg st) x).
Proof.
  destruct (updateActiveState_frame pg st x) as (Hdoc & Hcls & Hscroll & Hobs).
  repeat split; try done; try (by apply Hcls); by apply updateActiveState_again.
Qed.

Lemma currentSectionId_of_a_section pg st first rest :
  sectionsForNavHighlight pg = first :: rest →
  element_id st first = "inicio" →
  (∀ s, s ∈ first :: rest → element_id st s ≠ "") →
  0 ≤ navbarHeight pg →
  ∃ s, s ∈ first :: rest ∧ currentSectionId pg st = element_id st s.
Proof.
  intros Hl Hfirst Hids Hnav.
  unfold currentSectionId. rewrite scan_sections_last.
  destruct (last_reached pg st) as [s|] eqn:Hlast.
  - assert (s ∈ first :: rest) as Hs.
    { unfold last_reached in Hlast. apply last_Some_elem_of in Hlast.
      apply list_elem_of_filter in Hlast as [_ Hs]. by rewrite Hl in Hs. }
    exists s. split; [done|].
    by rewrite (bool_decide_eq_false_2 _ (Hids s Hs)).
  - exists first. split; [by left|]. rewrite Hl, Hfirst.
    rewrite !bool_decide_eq_true_2 by done. simpl.
    assert (reached pg st first = false) as Hnot.
    { apply not_true_iff_false. intros Hr.
      unfold last_reached in Hlast. apply last_None in Hlast.
      apply (filter_nil_not_elem_of _ _ first Hlast Hr). rewrite Hl. by left. }
    apply not_reached_iff in Hnot.
    assert (Qle_bool (inject_Z (offsetTop (document st first))) (pageYOffset st) = false) as ->.
    { apply not_true_iff_false. rewrite Qle_bool_iff. intros Hle.
      apply (Qlt_not_le _ _ Hnot). eapply Qle_trans; [|exact Hle].
      rewrite <- Zle_Qle. unfold sectionTop. lia. }
    done.
Qed.

(** X19: on a page whose first section is 'inicio' and whose sections all
    have an id, some section is always current: at every scroll position
    there is a section such that the links marked by updateActiveState are
    exactly the links to it. *)
Theorem first_section_inicio_always_current pg st first rest :
  sectionsForNavHighlight pg = first :: rest →
  element_id st first = "inicio" →
  (∀ s, s ∈ first :: rest → element_id st s ≠ "") →
  0 ≤ navbarHeight pg →
  ∃ s, s ∈ first :: rest
       ∧ ∀ link, link ∈ desktopMenuLinks pg ++ mobileMenuLinks pg →
           (active (updateActiveState pg st) link
            ↔ getAttribute st link "href" = Some ("#" +:+ element_id st s)).
Proof.
  intros Hl Hfirst Hids Hnav.
  destruct (currentSectionId_of_a_section pg st first rest Hl Hfirst Hids Hnav)
    as (s & Hs & Hcurrent).
  exists s. split; [done|]. intros link Hlink.
  destruct (updateActiveState_spec pg st link) as (Hmark & _).
  by rewrite (Hmark Hlink), Hcurrent.
Qed.

(** ** The fade-in observer *)

Lemma intersectionCallback_classes entries st x :
  let st' := intersectionCallback entries st in
  but_classes (document st' x) = but_classes (document st x)
  ∧ (∀ t, t ∈ classList (document st' x)
          ↔ t ∈ classList (document st x)
            ∨ (t = "is-visible"
               ∧ ∃ entry, entry ∈ entries ∧ target entry = x ∧ isIntersecting entry = true))
  ∧ (x ∈ observed st'
     ↔ x ∈ observed st
       ∧ ¬ ∃ entry, entry ∈ entries ∧ target entry = x ∧ isIntersecting entry = true)
  ∧ pageYOffset st' = pageYOffset st.
Proof.
  unfold intersectionCallback. revert st.
  induction entries as [|e entries IH]; intros st; simpl.
  - split; [done|]. split; [intros t|split; [|done]]; split; try tauto.
    + intros [?|(_ & ? & ?%elem_of_nil & _)]; done.
    + intros ?. split; [done|]. by intros (? & ?%elem_of_nil & _).
  - set (st1 := if isIntersecting e
                then unobserve (target e) (classList_add (target e) "is-visible" st)
                else st).
    destruct (IH st1) as (Hdoc & Hcls & Hobs & Hscroll).
    assert (Hscroll1 : pageYOffset st1 = pageYOffset st)
      by (unfold st1; by destruct (isIntersecting e)).
    assert (Hdoc1 : but_classes (document st1 x) = but_classes (document st x)).
    { unfold st1, unobserve. destruct (isIntersecting e); [|done]. simpl. by dom_cases. }
    assert (Hcls1 : ∀ t, t ∈ classList (document st1 x)
                         ↔ t ∈ classList (document st x)
                           ∨ (t = "is-visible" ∧ target e = x ∧ isIntersecting e = true)).
    { intros t. unfold st1, unobserve. destruct (isIntersecting e); simpl.
      - dom_cases; token_solver.
      - split; [by left | by intros [?|(_ & _ & ?)]]. }
    assert (Hobs1 : x ∈ observed st1
                    ↔ x ∈ observed st ∧ ¬ (target e = x ∧ isIntersecting e = true)).
    { unfold st1, unobserve. destruct (isIntersecting e); simpl.
      - rewrite list_elem_of_filter. split.
        + intros [? ?]. split; [done|]. intros [? _]. congruence.
        + intros [? Hn]. split; [|done]. intros ->. by apply Hn.
      - split; [intros ?; split; [done|]; by intros [_ ?] | by intros [? _]]. }
    split; [by rewrite Hdoc|]. split; [|split; [|by rewrite Hscroll]].
    + intros t. rewrite Hcls, Hcls1. split.
      * intros [[?|(? & ? & ?)]|(? & entry & ? & ? & ?)]; [by left|right..].
        -- split; [done|]. exists e. split; [by left|done].
        -- split; [done|]. exists entry. split; [by right|done].
      * intros [?|(? & entry & [->|?]%elem_of_cons & ? & ?)]; [by left; left|left|right].
        -- by right.
        -- split; [done|]. by exists entry.
    + rewrite Hobs, Hobs1. split.
      * intros [[? Hne] Hrest]. split; [done|].
        intros (entry & [->|?]%elem_of_cons & ? & ?); [by apply Hne|].
        apply Hrest. by exists entry.
      * intros [? Hnone]. split; [split; [done|]|].
        -- intros [? ?]. apply Hnone. exists e. split; [by left|done].
        -- intros (entry & ? & ? & ?). apply Hnone. exists entry. split; [by right|done].
Qed.

(** X20: the callback of the observer does this and no more: an element
    gains the is-visible class if an entry reports it as intersecting, and
    neither gains nor loses any other class or anything else; it remains
    observed exactly if it was observed and no entry reports it as
    intersecting.  Entries that are not intersecting change nothing. *)
Theorem intersectionCallback_effect entries st x :
  let st' := intersectionCallback entries st in
  but_classes (document st' x) = but_classes (document st x)
  ∧ (∀ t, t ∈ classList (document st' x)
          ↔ t ∈ classList (document st x)
            ∨ (t = "is-visible"
               ∧ ∃ entry, entry ∈ entries ∧ target entry = x ∧ isIntersecting entry = true))
  ∧ (x ∈ observed st'
     ↔ x ∈ observed st
       ∧ ¬ ∃ entry, entry ∈ entries ∧ target entry = x ∧ isIntersecting entry = true)
  ∧ pageYOffset st' = pageYOffset st.
Proof. apply intersectionCallback_classes. Qed.

(** ** What can reveal a section *)

Lemma hidden_update n f st x :
  ("is-visible" ∈ classList (f (document st x)) → "is-visible" ∈ classList (document st x)) →
  visible (update n f st) x → visible st x.
Proof. unfold visible. intros Hf. dom_cases; auto. Qed.

Lemma hidden_classList_add n t st x :
  t ≠ "is-visible" → visible (classList_add n t st) x → visible st x.
Proof. intros Ht. apply hidden_update. simpl. token_solver. Qed.

Lemma hidden_classList_remove n t st x : visible (classList_remove n t st) x → visible st x.
Proof. apply hidden_update. simpl. token_solver. Qed.

Lemma hidden_classList_toggle n t st x :
  t ≠ "is-visible" → visible (classList_toggle n t st) x → visible st x.
Proof. intros Ht. apply hidden_update. simpl. token_solver. Qed.

Lemma hidden_classList_force n t b st x :
  t ≠ "is-visible" → visible (classList_force n t b st) x → visible st x.
Proof. intros Ht. apply hidden_update. simpl. token_solver. Qed.

Lemma hidden_set_className n tokens st x :
  "is-visible" ∉ tokens → visible (set_className n tokens st) x → visible st x.
Proof. intros Ht. apply hidden_update. simpl. by intros ?%Ht. Qed.

Lemma message_classes_not_visible :
  ("is-visible" ∉ error_classes) ∧ ("is-visible" ∉ progress_classes)
  ∧ ("is-visible" ∉ success_classes).
Proof. unfold error_classes, progress_classes, success_classes. set_solver. Qed.

(** Traces a visible section back through the operations of a handler. *)
Ltac hidden_solver :=
  repeat match goal with
    | H : visible ?s ?x |- visible ?s ?x => exact H
    | H : visible (classList_add _ _ _) _ |- _ =>
        apply hidden_classList_add in H; [|discriminate]
    | H : visible (classList_remove _ _ _) _ |- _ => apply hidden_classList_remove in H
    | H : visible (classList_toggle _ _ _) _ |- _ =>
        apply hidden_classList_toggle in H; [|discriminate]
    | H : visible (classList_force _ _ _ _) _ |- _ =>
        apply hidden_classList_force in H; [|discriminate]
    | H : visible (set_className _ _ _) _ |- _ =>
        apply hidden_set_className in H; [|apply message_classes_not_visible]
    | H : visible (setAttribute _ _ _ _) _ |- _ => apply hidden_update in H; [|done]
    | H : visible (removeAttribute _ _ _) _ |- _ => apply hidden_update in H; [|done]
    | H : visible (set_textContent _ _ _) _ |- _ => apply hidden_update in H; [|done]
    | H : visible (update _ _ _) _ |- _ => apply hidden_update in H; [|done]
    | H : visible (match ?c with _ => _ end) _ |- _ => destruct c eqn:?
    | H : visible (match ?c with _ => _ end).1 _ |- _ => destruct c eqn:?
    | H : visible (_, _).1 _ |- _ => simpl in H
    end.

Lemma hidden_validateField pg f st x : visible (validateField pg f st).1 x → visible st x.
Proof. rewrite validateField_eq. cbv zeta. intros H. hidden_solver. Qed.

Lemma hidden_validate_each pg fields st ok x :
  visible (validate_each pg fields st ok).1 x → visible st x.
Proof.
  revert st ok. induction fields as [|f fields IH]; intros st ok; simpl; [done|].
  pose proof (hidden_validateField pg f st x).
  destruct (validateField pg f st). intros ?%IH. auto.
Qed.

Lemma hidden_show_message pg msg text classes role st x :
  "is-visible" ∉ classes →
  visible (show_message pg msg text classes role st) x → visible st x.
Proof.
  intros Hc. unfold show_message, set_role. intros H.
  assert (visible (set_className msg classes (set_textContent msg text st)) x) as H'
    by (destruct (formMessageContainer pg); [by apply hidden_update in H|done]).
  apply hidden_set_className in H'; [|done]. by apply hidden_update in H'.
Qed.

Lemma hidden_contactForm_submit pg msg st x :
  visible (after (contactForm_submit pg msg st)) x → visible st x.
Proof.
  unfold contactForm_submit.
  pose proof (hidden_validate_each pg (fieldsToValidate pg st) st true x) as Hv.
  destruct (validate_each pg (fieldsToValidate pg st) st true) as [st' []]; simpl in *.
  - intros H. apply Hv. destruct (submitButton pg); simpl in H; hidden_solver.
  - intros H. apply Hv. eapply hidden_show_message; [|done].
    apply message_classes_not_visible.
Qed.

Lemma hidden_contactForm_settled pg msg k o st x :
  visible (contactForm_settled pg msg k o st) x → visible st x.
Proof.
  unfold contactForm_settled, visible.
  destruct (but_button_state_fields _ _ (restore_button_frame pg k
    match o with
    | NetworkError => on_error pg msg st
    | Response ok parsed =>
        match on_response pg msg k ok parsed st with
        | Some st' => st'
        | None => on_error pg msg st
        end
    end x)) as (-> & _).
  fold (visible st x).
  assert (Herr : visible (on_error pg msg st) x → visible st x).
  { apply hidden_show_message, message_classes_not_visible. }
  destruct o as [|ok parsed]; [done|].
  destruct (on_response pg msg k ok parsed st) as [st'|] eqn:Hresp; [|done].
  apply on_response_Some in Hresp as (text & ->).
  destruct ok.
  - intros H.
    assert (visible (reset_form pg (show_message pg msg text success_classes "status" st)) x)
      as H1.
    { revert H. unfold clear_errors.
      generalize (reset_form pg (show_message pg msg text success_classes "status" st)).
      induction (validatedFields k) as [|f fields IH]; intros s; simpl; [done|].
      intros H%IH. hidden_solver. }
    unfold visible in H1.
    destruct (reset_form_spec pg (show_message pg msg text success_classes "status" st) x)
      as (_ & Hcls & _).
    rewrite Hcls in H1.
    eapply hidden_show_message; [|exact H1]. apply message_classes_not_visible.
  - apply hidden_show_message, message_classes_not_visible.
Qed.

Lemma hidden_updateActiveState pg st x :
  visible (updateActiveState pg st) x → visible st x.
Proof.
  unfold visible. destruct (updateActiveState_frame pg st x) as (_ & Hcls & _).
  by apply Hcls.
Qed.

Lemma hidden_handle pg ev st x :
  visible (handle pg ev st) x →
  visible st x
  ∨ ∃ entries entry,
      ev = Intersection entries ∧ hasIntersectionObserver pg = true
      ∧ sectionsToFadeIn pg ≠ []
      ∧ entry ∈ entries ∧ target entry = x ∧ isIntersecting entry = true.
Proof.
  destruct ev; simpl.
  - intros H. left. unfold mobileMenuButton_click in *. hidden_solver.
  - intros H. left. unfold mobileMenuLink_click in *. hidden_solver.
  - intros H. left. unfold anchor_click, close_mobile_menu in *. hidden_solver.
  - intros H. left. repeat case_match; eauto using hidden_validateField.
  - intros H. left. repeat case_match; eauto using hidden_contactForm_submit.
  - intros H. left. repeat case_match; eauto using hidden_contactForm_settled.
  - destruct (hasIntersectionObserver pg) eqn:Hobs; simpl; [|by left].
    case_bool_decide as Hsec; simpl; [by left|].
    intros H. apply intersectionCallback_classes in H as [?|(_ & entry & ? & ? & ?)];
      [by left|right].
    by exists entries, entry.
  - intros H. left. repeat case_match; eauto using hidden_updateActiveState.
  - intros H. left. by apply hidden_update in H.
  - intros H. left. by apply hidden_update in H.
  - intros H. left. apply hidden_update in H; [|done]. by apply hidden_update in H.
  - by left.
Qed.

(** X21: only the observer reveals a section.  If an element carries the
    is-visible class after some events, it carried the class before them or
    one of the events was the observer reporting it as intersecting; in a
    browser without IntersectionObserver, or on a page without fade-in
    sections, the script never adds the class. *)
Theorem only_the_observer_reveals pg events st x :
  visible (run pg events st) x →
  visible st x
  ∨ (hasIntersectionObserver pg = true ∧ sectionsToFadeIn pg ≠ []
     ∧ ∃ entries entry,
         Intersection entries ∈ events
         ∧ entry ∈ entries ∧ target entry = x ∧ isIntersecting entry = true).
Proof.
  unfold run. revert st. induction events as [|ev events IH]; intros st; simpl; [by left|].
  intros [H|(? & ? & entries & entry & ? & ?)]%IH.
  - apply hidden_handle in H as [?|(entries & entry & -> & ? & ? & ?)]; [by left|right].
    split; [done|]. split; [done|]. exists entries, entry. split; [by left|done].
  - right. split; [done|]. split; [done|]. exists entries, entry. split; [by right|done].
Qed.

(** ** The scroll listener *)

Lemma scroll_count_cons ev events :
  scroll_count (ev :: events)
  = ((if is_scroll ev then 1 else 0) + scroll_count events)%nat.
Proof.
  unfold scroll_count. rewrite filter_cons.
  case_decide as Hev; [by rewrite Hev|].
  by rewrite (not_true_is_false _ Hev).
Qed.

Lemma scroll_run_invariant pg events t st runs count :
  (scheduled t = [] ∨ ∃ id, scheduled t = [id] ∧ scrollTimeout t = Some id) →
  (runs + length (scheduled t) ≤ count)%nat →
  let s := scroll_run pg events (t, st, runs) in
  (scheduled s.1.1 = [] ∨ ∃ id, scheduled s.1.1 = [id] ∧ scrollTimeout s.1.1 = Some id)
  ∧ (s.2 + length (scheduled s.1.1) ≤ count + scroll_count events)%nat.
Proof.
  unfold scroll_run. revert t st runs count.
  induction events as [|ev events IH]; intros t st runs count Hone Hruns.
  - simpl. split; [done|]. unfold scroll_count. simpl. lia.
  - rewrite scroll_count_cons.
    change (fold_left (scroll_step pg) (ev :: events) (t, st, runs))
      with (fold_left (scroll_step pg) events (scroll_step pg (t, st, runs) ev)).
    destruct ev as [y|id|]; cbn [scroll_step is_scroll].
    + destruct (IH (window_scroll t)
                  (mkState (document st) y (innerWidth st) (observer st) (observed st))
                  runs (S count)) as [H1 H2].
      * right. exists (nextTimer t). split; [|done]. simpl.
        destruct Hone as [->|(id & -> & ->)]; simpl.
        -- by destruct (scrollTimeout t).
        -- by rewrite filter_cons, decide_False by naive_solver.
      * simpl. destruct Hone as [->|(id & -> & ->)]; simpl.
        -- destruct (scrollTimeout t); simpl in *; lia.
        -- rewrite filter_cons, decide_False by naive_solver. simpl in *. lia.
      * split; [exact H1|]. cbv zeta in H2. lia.
    + case_bool_decide as Hin.
      * destruct (IH (mkTimers (filter (λ j, j ≠ id) (scheduled t)) (scrollTimeout t)
                        (nextTimer t))
                    (updateActiveState pg st) (S runs) count) as [H1 H2].
        -- left. simpl. destruct Hone as [Hnil|(id' & Hid & _)]; rewrite ?Hnil, ?Hid in *.
           ++ by apply elem_of_nil in Hin.
           ++ apply list_elem_of_singleton in Hin as ->.
              by rewrite filter_cons, decide_False by naive_solver.
        -- simpl. destruct Hone as [Hnil|(id' & Hid & _)]; rewrite ?Hnil, ?Hid in *.
           ++ by apply elem_of_nil in Hin.
           ++ apply list_elem_of_singleton in Hin as ->.
              rewrite filter_cons, decide_False by naive_solver. simpl in *. lia.
        -- split; [exact H1|]. cbv zeta in H2. lia.
      * destruct (IH t st runs count Hone Hruns) as [H1 H2].
        split; [exact H1|]. cbv zeta in H2. lia.
    + destruct (IH (mkTimers (scheduled t) (scrollTimeout t) (S (nextTimer t))) st runs count
                  Hone Hruns) as [H1 H2].
      split; [exact H1|]. cbv zeta in H2. lia.
Qed.

(** X22: the scroll listener debounces.  From the moment it is installed,
    however scroll events, elapsing timeouts and other timers interleave, at
    most one run of updateActiveState is waiting, it is the one that the
    variable scrollTimeout names, and updateActiveState has run no more
    often than the window has scrolled; right after a scroll event exactly
    one run is waiting. *)
Theorem scroll_listener_debounces pg events st next :
  let s := scroll_run pg events (no_timers next, st, 0%nat) in
  (length (scheduled s.1.1) ≤ 1)%nat
  ∧ (∀ id, id ∈ scheduled s.1.1 → scrollTimeout s.1.1 = Some id)
  ∧ (s.2 + length (scheduled s.1.1) ≤ scroll_count events)%nat
  ∧ ∀ y, length (scheduled (scroll_run pg (events ++ [WindowScroll y])
                              (no_timers next, st, 0%nat)).1.1) = 1%nat.
Proof.
  cbv zeta.
  destruct (scroll_run_invariant pg events (no_timers next) st 0%nat 0%nat)
    as [Hone Hruns]; [by left|simpl; lia|].
  split; [|split; [|split; [exact Hruns|]]].
  - destruct Hone as [->|(id & -> & _)]; simpl; lia.
  - intros id Hin. destruct Hone as [Hnil|(id' & Hid & Hvar)]; rewrite ?Hnil, ?Hid in Hin.
    + by apply elem_of_nil in Hin.
    + by apply list_elem_of_singleton in Hin as ->.
  - intros y. unfold scroll_run in *. rewrite fold_left_app. simpl.
    destruct (fold_left (scroll_step pg) events (no_timers next, st, 0%nat))
      as [[t st'] runs]. simpl in *.
    destruct Hone as [->|(id & -> & ->)]; simpl.
    + by destruct (scrollTimeout t).
    + by rewrite filter_cons, decide_False by naive_solver.
Qed.
(** ** The request that fails, and the message that cannot be shown *)



(** * The further properties at sample pages *)

Lemma optional_field_validation_witness :
  (validateField newsletter_page 2%nat (newsletter_form "Ana" false)).2 = true.
Proof.
  destruct (optional_field_validation newsletter_page 2%nat (newsletter_form "Ana" false))
    as [_ Hany]; [reflexivity|].
  apply Hany. discriminate.
Defined.

Lemma submit_marks_every_rejected_field_witness :
  "border-red-500"
  ∈ classList (document (after (contactForm_submit newsletter_page 4%nat
                                  (newsletter_form "  " false))) 1%nat).
Proof.
  apply (submit_marks_every_rejected_field newsletter_page 4%nat
           (newsletter_form "  " false) 1%nat).
  - set_solver.
  - left. split; [by left | by eexists].
  - discriminate.
  - reflexivity.
Defined.

Lemma submit_shows_progress_witness :
  disabled (document (after (contactForm_submit newsletter_page 4%nat
                               (newsletter_form "Ana" false))) 3%nat) = true.
Proof.
  apply (submit_shows_progress newsletter_page 4%nat 3%nat (newsletter_form "Ana" false)).
  - reflexivity.
  - discriminate.
  - apply all_valid_acceptable, newsletter_form_valid.
Defined.

Lemma submit_then_settle_restores_button_witness :
  disabled (document (contactForm_settled newsletter_page 4%nat (mkPending [1%nat] "")
                        (Response true None) (newsletter_form "Ana Luz" true)) 3%nat)
  = false.
Proof.
  apply (submit_then_settle_restores_button newsletter_page 4%nat 3%nat
           (newsletter_form "Ana" false) (mkPending [1%nat] "")).
  - reflexivity.
  - reflexivity.
Defined.

Lemma submit_without_button_sends_nothing_witness :
  fetched (contactForm_submit buttonless_page 4%nat (newsletter_form "Ana" false)) = [].
Proof.
  apply (submit_without_button_sends_nothing buttonless_page 4%nat
           (newsletter_form "Ana" false)).
  reflexivity.
Defined.

Lemma body_holds_the_last_entry_witness :
  ∃ req,
    fetched (contactForm_submit newsletter_page 4%nat (newsletter_form "Ana" false)) = [req]
    ∧ body req !! "nombre" = Some (EntryString (js "Ana")).
Proof.
  destruct (body_holds_the_last_entry newsletter_page 4%nat 3%nat
              (newsletter_form "Ana" false)) as (req & Hreq & Hbody).
  - reflexivity.
  - apply all_valid_acceptable, newsletter_form_valid.
  - exists req. split; [exact Hreq|]. rewrite Hbody. reflexivity.
Defined.

Lemma only_success_resets_witness :
  same_entries (document (newsletter_form "Ana" true) 1%nat)
    (document (contactForm_settled newsletter_page 4%nat newsletter_pending
                 (Response false (Some (JObject [])))
                 (newsletter_form "Ana" true)) 1%nat).
Proof.
  apply (only_success_resets newsletter_page 4%nat newsletter_pending
           (Response false (Some (JObject []))) (newsletter_form "Ana" true) 1%nat).
  intros result. discriminate.
Defined.

Lemma menu_clicks_touch_the_menu_only_witness :
  document (mobileMenuButton_click 0%nat 1%nat (Some 2%nat)
              (menu_state "false" ["hidden"] ["fa-bars"])) 3%nat
  = document (menu_state "false" ["hidden"] ["fa-bars"]) 3%nat.
Proof.
  apply (menu_clicks_touch_the_menu_only 0%nat 1%nat (Some 2%nat)
           (menu_state "false" ["hidden"] ["fa-bars"]) 3%nat); discriminate.
Defined.

Lemma second_close_is_idle_witness :
  (anchor_click menu_page 3%nat
     (mobileMenuLink_click 0%nat 1%nat (menuIcon menu_page)
        (menu_state "true" [] ["fa-times"]))).1
  = mobileMenuLink_click 0%nat 1%nat (menuIcon menu_page) (menu_state "true" [] ["fa-times"]).
Proof.
  apply (second_close_is_idle menu_page 0%nat 1%nat 3%nat (menu_state "true" [] ["fa-times"])).
  reflexivity.
Defined.

Lemma first_section_inicio_always_current_witness :
  ∃ s, s ∈ [0; 1]%nat
       ∧ ∀ link, link ∈ [2; 3]%nat →
           (active (updateActiveState sections_page (sections_state (-200))) link
            ↔ getAttribute (sections_state (-200)) link "href"
              = Some ("#" +:+ element_id (sections_state (-200)) s)).
Proof.
  apply (first_section_inicio_always_current sections_page (sections_state (-200))
           0%nat [1%nat]).
  - reflexivity.
  - reflexivity.
  - intros s Hs. repeat (apply elem_of_cons in Hs as [->|Hs]); [..|by apply elem_of_nil in Hs];
      discriminate.
  - simpl. lia.
Defined.

Lemma only_the_observer_reveals_witness :
  visible (sections_state 500) 1%nat
  ∨ (hasIntersectionObserver sections_page = true ∧ sectionsToFadeIn sections_page ≠ []
     ∧ ∃ entries entry,
         Intersection entries ∈ [UserScroll 500; Intersection [mkEntry 1%nat true]]
         ∧ entry ∈ entries ∧ target entry = 1%nat ∧ isIntersecting entry = true).
Proof.
  apply (only_the_observer_reveals sections_page
           [UserScroll 500; Intersection [mkEntry 1%nat true]] (sections_state 500) 1%nat).
  unfold visible. vm_compute classList. set_solver.
Defined.


